(** * DjangoQL completion: tokenizer, name resolution, context and suggestions

    A shallow embedding of the completion core of
    [djangoql/static/js/djangoql_completion_admin.js]: the lexer rules and
    [lexAll], [resolveName], [getContext] and [generateSuggestions], and of
    the widget around it: [renderCompletion], [hideCompletion],
    [selectCompletion] and [onKeydown].

    JavaScript strings are sequences of UTF-16 code units; they are modelled
    as lists of code units so that the characters the regular expressions
    single out (U+00A0, U+2028, U+2029) are ordinary inhabitants. *)

From Stdlib Require Import ZArith NArith Lia Ascii String.
From stdpp Require Import base tactics option list strings.

Open Scope Z_scope.

(** ** Strings *)

Definition char := N.
Bind Scope N_scope with char.
Definition jsstring := list char.

(** A literal of the source text, one code unit per (ASCII) character. *)
Definition js (s : string) : jsstring :=
  (fun a => N_of_ascii a) <$> list_ascii_of_string s.

(** The double quote and the backslash, by code. *)
Definition dquote : char := 34%N.

(** [a === b] on strings: the same code units. *)
Fixpoint streq (a b : jsstring) : bool :=
  match a, b with
  | [], [] => true
  | x :: a', y :: b' => (x =? y)%N && streq a' b'
  | _, _ => false
  end.

(** Relative index of [slice]: a negative index counts from the end, and the
    result is clamped to [0, len]. *)
Definition slice_index (len i : Z) : Z :=
  if i <? 0 then Z.max (len + i) 0 else Z.min i len.

(** [s.slice(from, to)]. *)
Definition slice (s : jsstring) (from to : Z) : jsstring :=
  let len := Z.of_nat (length s) in
  let k := slice_index len from in
  let final := slice_index len to in
  take (Z.to_nat (final - k)) (drop (Z.to_nat k) s).

(** [s.slice(from)]. *)
Definition slice_from (s : jsstring) (from : Z) : jsstring :=
  slice s from (Z.of_nat (length s)).

(** [s] begins with [p], code unit by code unit. *)
Fixpoint starts_with (p s : jsstring) : bool :=
  match p, s with
  | [], _ => true
  | a :: p', b :: s' => (a =? b)%N && starts_with p' s'
  | _ :: _, [] => false
  end.

(** [s.split('.')]: never empty, [''.split('.')] is [['']]. *)
Fixpoint split_dot (s : jsstring) : list jsstring :=
  match s with
  | [] => [[]]
  | c :: s' =>
      if (c =? 46)%N then [] :: split_dot s'
      else match split_dot s' with
           | p :: ps => (c :: p) :: ps
           | [] => [[c]]
           end
  end.

(** [parts.join('.')]. *)
Fixpoint join_dot (parts : list jsstring) : jsstring :=
  match parts with
  | [] => []
  | [p] => p
  | p :: ps => p ++ 46%N :: join_dot ps
  end.

(** Downward search of [lastIndexOf], from candidate position [k]. *)
Fixpoint lastIndexOf_from (s p : jsstring) (k : nat) : Z :=
  if starts_with p (drop k s) then Z.of_nat k
  else match k with
       | O => -1
       | S k' => lastIndexOf_from s p k'
       end.

(** [s.lastIndexOf(p, position)]: the largest [k <= min(max(position,0), len)]
    at which [p] occurs in [s], or [-1]. *)
Definition lastIndexOf (s p : jsstring) (position : Z) : Z :=
  lastIndexOf_from s p
    (Z.to_nat (Z.min (Z.max position 0) (Z.of_nat (length s)))).

(** ** Character classes of the regular expressions (source lines 47-65) *)

Definition in_range (lo hi c : char) : bool := ((lo <=? c) && (c <=? hi))%N.

(** [[0-9]] and [[1-9]] *)
Definition isDigit (c : char) : bool := in_range 48 57 c.
Definition isDigit19 (c : char) : bool := in_range 49 57 c.

(** [[_A-Za-z]] *)
Definition isNameStart (c : char) : bool :=
  (c =? 95)%N || in_range 65 90 c || in_range 97 122 c.

(** [[_0-9A-Za-z]] *)
Definition isNameChar (c : char) : bool :=
  (c =? 95)%N || isDigit c || in_range 65 90 c || in_range 97 122 c.

(** [[0-9A-Fa-f]] *)
Definition isHex (c : char) : bool :=
  isDigit c || in_range 65 70 c || in_range 97 102 c.

(** [[ \t\v\f\u00A0]] *)
Definition isWhitespace (c : char) : bool :=
  (c =? 32)%N || (c =? 9)%N || (c =? 11)%N || (c =? 12)%N || (c =? 160)%N.

(** [reLineTerminators]: [\n \r \u2028 \u2029] *)
Definition isLineTerminator (c : char) : bool :=
  (c =? 10)%N || (c =? 13)%N || (c =? 8232)%N || (c =? 8233)%N.

(** The second character of [reEscapedChar]: a backslash, a double quote, a
    slash or one of [b f n r t]. *)
Definition isEscapable (c : char) : bool :=
  (c =? 92)%N || (c =? 34)%N || (c =? 47)%N || (c =? 98)%N ||
  (c =? 102)%N || (c =? 110)%N || (c =? 114)%N || (c =? 116)%N.

(** ** The regular expressions, matched at the head of the remaining input

    Each function returns the length of the lexeme the expression matches
    when anchored at the first character of its argument, or [None]. *)

(** Length of the longest run of characters of class [p] at the head. *)
Fixpoint run (p : char -> bool) (s : jsstring) : nat :=
  match s with
  | c :: s' => if p c then S (run p s') else O
  | [] => O
  end.

(** [cls+] *)
Definition some_of (p : char -> bool) (s : jsstring) : option nat :=
  match run p s with
  | O => None
  | S n => Some (S n)
  end.

(** [whitespaceRegex = /[ \t\v\f\u00A0]+/] *)
Definition whitespaceRegex (s : jsstring) : option nat := some_of isWhitespace s.

(** A literal pattern such as [/\./], [/!=/]. *)
Definition literal (lit s : jsstring) : option nat :=
  if starts_with lit s then Some (length lit) else None.

(** [kw + reNotFollowedByName]: the keyword, not followed by [[_0-9A-Za-z]]. *)
Definition keyword (kw s : jsstring) : option nat :=
  if starts_with kw s then
    match drop (length kw) s with
    | c :: _ => if isNameChar c then None else Some (length kw)
    | [] => Some (length kw)
    end
  else None.

(** The rest of [nameRegex] after its first character, greedy: name
    characters, then any number of groups made of a dot, a name start and
    name characters. *)
Fixpoint name_rest (s : jsstring) : nat :=
  match s with
  | c :: s' =>
      if isNameChar c then S (name_rest s')
      else if (c =? 46)%N then
        match s' with
        | c2 :: s'' => if isNameStart c2 then S (S (name_rest s'')) else O
        | [] => O
        end
      else O
  | [] => O
  end.

(** [nameRegex]: a segment [[_A-Za-z][_0-9A-Za-z]*], then any number of
    dot-separated further segments. *)
Definition nameRegex (s : jsstring) : option nat :=
  match s with
  | c :: s' => if isNameStart c then Some (S (name_rest s')) else None
  | [] => None
  end.

(** [(reEscapedChar|reEscapedUnicode|reStringChar)*] and the closing double
    quote: the rest of a string literal after its opening quote. *)
Fixpoint string_rest (s : jsstring) : option nat :=
  match s with
  | [] => None
  | c :: s' =>
      if (c =? 34)%N then Some 1%nat
      else if (c =? 92)%N then
        match s' with
        | e :: s2 =>
            if isEscapable e then (fun n => S (S n)) <$> string_rest s2
            else if (e =? 117)%N then
              match s2 with
              | h1 :: h2 :: h3 :: h4 :: s6 =>
                  if isHex h1 && isHex h2 && isHex h3 && isHex h4
                  then (fun n => (6 + n)%nat) <$> string_rest s6
                  else None
              | _ => None
              end
            else None
        | [] => None
        end
      else if isLineTerminator c then None
      else S <$> string_rest s'
  end.

(** [stringRegex] *)
Definition stringRegex (s : jsstring) : option nat :=
  match s with
  | c :: s' => if (c =? 34)%N then S <$> string_rest s' else None
  | [] => None
  end.

(** [-?] *)
Definition opt_char (c : char) (s : jsstring) : nat :=
  match s with
  | x :: _ => if (x =? c)%N then 1%nat else O
  | [] => O
  end.

(** [reIntValue]: [-?0] or else [-?[1-9][0-9]*], in this order. *)
Definition intRegex (s : jsstring) : option nat :=
  let sign := opt_char 45 s in
  match drop sign s with
  | c :: r =>
      if (c =? 48)%N then Some (S sign)
      else if isDigit19 c then Some (S sign + run isDigit r)%nat
      else None
  | [] => None
  end.

(** [reFractionPart = \.[0-9]+] *)
Definition fractionPart (s : jsstring) : option nat :=
  match s with
  | c :: r => if (c =? 46)%N then S <$> some_of isDigit r else None
  | [] => None
  end.

(** [reExponentPart = [eE][+-]?[0-9]+] *)
Definition exponentPart (s : jsstring) : option nat :=
  match s with
  | c :: r =>
      if (c =? 101)%N || (c =? 69)%N then
        let sign := (opt_char 43 r + opt_char 45 r)%nat in
        (fun n => S (sign + n)) <$> some_of isDigit (drop sign r)
      else None
  | [] => None
  end.

(** [floatRegex]: int frac exp | int frac | int exp, alternatives in order. *)
Definition floatRegex (s : jsstring) : option nat :=
  match intRegex s with
  | None => None
  | Some i =>
      let r := drop i s in
      match fractionPart r with
      | Some f =>
          match exponentPart (drop f r) with
          | Some e => Some (i + f + e)%nat
          | None => Some (i + f)%nat
          end
      | None => (fun e => (i + e)%nat) <$> exponentPart r
      end
  end.

(** ** Tokens and lexer rules (source lines 67-115) *)

Inductive TokenName :=
| DOT | COMMA | OR | AND | NOT | IN | TRUE | FALSE | NONE
| NAME | STRING_VALUE | INT_VALUE | FLOAT_VALUE
| PAREN_L | PAREN_R
| EQUALS | NOT_EQUALS | GREATER | GREATER_EQUAL | LESS | LESS_EQUAL
| CONTAINS | NOT_CONTAINS.

#[global] Instance TokenName_eq_dec : EqDecision TokenName.
Proof. solve_decision. Defined.

(** [names.indexOf(n) >= 0] *)
Definition name_in (n : TokenName) (names : list TokenName) : bool :=
  existsb (fun m => bool_decide (n = m)) names.

(** A token as [lexAll] returns it: [token(name, value)] with the [start]
    and [end] offsets [lexAll] adds. *)
Module Token.
Record t := mk { name : TokenName; value : jsstring; start : Z; end_ : Z }.
End Token.

(** [token(name, value)], before [lexAll] has added the offsets. *)
Definition token (name : TokenName) (value : jsstring) : TokenName * jsstring :=
  (name, value).

(** A rule as [addRule(pattern, action)] registers it.  The action receives
    the lexeme; [None] stands for an action that returns undefined. *)
Record Rule := {
  pattern : jsstring -> option nat;
  action : jsstring -> option (TokenName * jsstring)
}.

(** The pattern registered for each token name. *)
Definition pattern_of (n : TokenName) : jsstring -> option nat :=
  match n with
  | DOT => literal (js ".")
  | COMMA => literal (js ",")
  | OR => keyword (js "or")
  | AND => keyword (js "and")
  | NOT => keyword (js "not")
  | IN => keyword (js "in")
  | TRUE => keyword (js "True")
  | FALSE => keyword (js "False")
  | NONE => keyword (js "None")
  | NAME => nameRegex
  | STRING_VALUE => stringRegex
  | INT_VALUE => intRegex
  | FLOAT_VALUE => floatRegex
  | PAREN_L => literal (js "(")
  | PAREN_R => literal (js ")")
  | EQUALS => literal (js "=")
  | NOT_EQUALS => literal (js "!=")
  | GREATER => literal (js ">")
  | GREATER_EQUAL => literal (js ">=")
  | LESS => literal (js "<")
  | LESS_EQUAL => literal (js "<=")
  | CONTAINS => literal (js "~")
  | NOT_CONTAINS => literal (js "!~")
  end.

(** The action registered for each token name: the token carries the lexeme,
    except STRING_VALUE, whose action trims the leading and trailing quotes
    with [l.slice(1, l.length - 1)]. *)
Definition action_of (n : TokenName) (l : jsstring) : option (TokenName * jsstring) :=
  match n with
  | STRING_VALUE => Some (token STRING_VALUE (slice l 1 (Z.of_nat (length l) - 1)))
  | _ => Some (token n l)
  end.

Definition rule_of (n : TokenName) : Rule :=
  {| pattern := pattern_of n; action := action_of n |}.

(** The first rule: whitespace is matched and ignored. *)
Definition whitespace_rule : Rule :=
  {| pattern := whitespaceRegex; action := fun _ => None |}.

(** The rules in the order the source registers them (lines 75-115). *)
Definition registered_rules : list Rule :=
  whitespace_rule :: (rule_of <$>
    [DOT; COMMA; OR; AND; NOT; IN; TRUE; FALSE; NONE; NAME; STRING_VALUE;
     INT_VALUE; FLOAT_VALUE; PAREN_L; PAREN_R; EQUALS; NOT_EQUALS; GREATER;
     GREATER_EQUAL; LESS; LESS_EQUAL; CONTAINS; NOT_CONTAINS]).

(** The same rules in the order of the spec's list (4.1, items 1 to 8):
    whitespace, punctuation, keywords, NAME, STRING_VALUE, FLOAT_VALUE,
    INT_VALUE, operators with each two-character operator before its
    one-character prefix. *)
Definition spec_ordered_rules : list Rule :=
  whitespace_rule :: (rule_of <$>
    [DOT; COMMA; PAREN_L; PAREN_R; OR; AND; NOT; IN; TRUE; FALSE; NONE; NAME;
     STRING_VALUE; FLOAT_VALUE; INT_VALUE; EQUALS; NOT_EQUALS; GREATER_EQUAL;
     GREATER; LESS_EQUAL; LESS; CONTAINS; NOT_CONTAINS]).

(** ** The scanning engine *)

(** Modelled from the spec: the scanning engine of the [Lexer] class
    ([addRule], [setInput], [lex]), which the source imports and does not
    define; only the rules and [lexAll] are in the source.  Spec 4.1: the
    rule list is tried in order and the first rule matching at the current
    position wins, whitespace is consumed without a token, an unrecognised
    character is skipped silently (the source's error callback is empty),
    and lexing ends with the input.  This is [FirstMatch], over the order of
    the spec's list.  That order is not the one in which the source
    registers the rules (INT_VALUE and the one-character operators are
    registered before FLOAT_VALUE and the two-character ones), which is the
    order an engine preferring the longest lexeme, and the earlier rule
    among equally long ones, leaves free: [LongestMatch] is that discipline
    over the registration order.  Statements about tokens are proved under
    both. *)
Inductive Discipline := FirstMatch | LongestMatch.

(** The rules matching at the head of [rest], with their lexeme lengths. *)
Definition matching (rules : list Rule) (rest : jsstring) : list (Rule * nat) :=
  omap (fun r => (fun n => (r, n)) <$> pattern r rest) rules.

(** The first of the longest matches. *)
Fixpoint longest (ms : list (Rule * nat)) : option (Rule * nat) :=
  match ms with
  | [] => None
  | m :: ms' =>
      match longest ms' with
      | Some m' => if (snd m <? snd m')%nat then Some m' else Some m
      | None => Some m
      end
  end.

Definition select (d : Discipline) (rest : jsstring) : option (Rule * nat) :=
  match d with
  | FirstMatch => head (matching spec_ordered_rules rest)
  | LongestMatch => longest (matching registered_rules rest)
  end.

(** What one call of [lex()] yields: a token and the index after its
    lexeme, or undefined at the end of the input.  [OutOfFuel] is the
    model's own: [lex_fuel_enough] shows it is never reached from
    [lexAll]. *)
Inductive LexResult :=
| Lexed (name : TokenName) (value : jsstring) (index : nat)
| EndOfInput
| OutOfFuel.

(** [lex()] from position [index]: rules whose action returns nothing and
    characters no rule matches are passed over until a token is produced. *)
Fixpoint lex (fuel : nat) (d : Discipline) (input : jsstring) (index : nat)
  : LexResult :=
  match fuel with
  | O => OutOfFuel
  | S fuel' =>
      let rest := drop index input in
      match select d rest with
      | Some (r, len) =>
          match action r (take len rest) with
          | Some (n, v) => Lexed n v (index + len)
          | None => lex fuel' d input (index + len)
          end
      | None =>
          match rest with
          | [] => EndOfInput
          | _ :: _ => lex fuel' d input (S index)
          end
      end
  end.

(** The loop of [lexAll] (source lines 116-125): every token gets
    [start = index - value.length] and [end = index], where [index] is the
    lexer's position after the token's lexeme. *)
Fixpoint lexAll_loop (fuel : nat) (d : Discipline) (input : jsstring)
  (index : nat) : option (list Token.t) :=
  match fuel with
  | O => None
  | S fuel' =>
      match lex (S (length input)) d input index with
      | Lexed n v index' =>
          let match_ :=
            {| Token.name := n; Token.value := v;
               Token.start := Z.of_nat index' - Z.of_nat (length v);
               Token.end_ := Z.of_nat index' |} in
          (fun result => match_ :: result) <$> lexAll_loop fuel' d input index'
      | EndOfInput => Some []
      | OutOfFuel => None
      end
  end.

(** [lexer.setInput(text).lexAll()], [None] when the fuel runs out. *)
Definition lexAll_fuel (d : Discipline) (text : jsstring) : option (list Token.t) :=
  lexAll_loop (S (length text)) d text 0.

(** [lexer.setInput(text).lexAll()].  The default is never taken
    ([lexAll_loop_spans]). *)
Definition lexAll (d : Discipline) (text : jsstring) : list Token.t :=
  default [] (lexAll_fuel d text).

(** ** Values, objects and exceptions *)

(** The JavaScript values that [currentModel], [model] and [field] hold. *)
Inductive jsvalue := Undefined | Null | Str (s : jsstring).

(** Truthiness: undefined, null and the empty string are falsy. *)
Definition truthy (v : jsvalue) : bool :=
  match v with
  | Str (_ :: _) => true
  | _ => false
  end.

(** [a === b] on these values. *)
Definition strict_eq (a b : jsvalue) : bool :=
  match a, b with
  | Undefined, Undefined | Null, Null => true
  | Str s, Str s' => streq s s'
  | _, _ => false
  end.

(** The property key a value is converted to in [obj[v]]. *)
Definition to_key (v : jsvalue) : jsstring :=
  match v with
  | Str s => s
  | Null => js "null"
  | Undefined => js "undefined"
  end.

(** A plain object used as a map: its own properties in insertion order,
    each key listed once.  Properties inherited from [Object.prototype]
    are outside the model. *)
Definition object (V : Type) : Type := list (jsstring * V).

(** [obj[key]], [None] for undefined. *)
Fixpoint get_own {V : Type} (obj : object V) (key : jsstring) : option V :=
  match obj with
  | [] => None
  | (k, v) :: obj' => if streq k key then Some v else get_own obj' key
  end.

(** [Object.keys(obj)] *)
Definition keys {V : Type} (obj : object V) : list jsstring := fst <$> obj.

Inductive Exception := TypeError.

(** A call either returns a value or throws. *)
Inductive outcome (A : Type) : Type :=
| Return (a : A)
| Throw (e : Exception).
Arguments Return {A} a.
Arguments Throw {A} e.

#[global] Instance outcome_bind : MBind outcome :=
  fun A B f m => match m with Return a => f a | Throw e => Throw e end.

(** [v.type] for the values above.  Reading a property of undefined or null
    throws; a string primitive has no property [type], so the read yields
    undefined. *)
Definition get_type (v : jsvalue) : outcome jsvalue :=
  match v with
  | Undefined | Null => Throw TypeError
  | Str _ => Return Undefined
  end.

(** ** The schema: [this.currentModel] and [this.models] *)

(** A field of the introspection data: [{type: ..., relation: ...}], the
    [relation] property present on relation fields. *)
Module FieldDef.
Record t := mk { type : jsstring; relation : option jsstring }.
End FieldDef.

(** [f.relation] as a value. *)
Definition relation_value (f : FieldDef.t) : jsvalue :=
  from_option Str Undefined (FieldDef.relation f).

Record Schema := {
  currentModel : jsvalue;
  models : object (object FieldDef.t)
}.

(** ** resolveName (source lines 418-443) *)

Module ResolvedName.
Record t := mk { model : jsvalue; field : jsvalue }.
End ResolvedName.

(** The [for] loop over [nameParts], from the current [model] and [field].
    [this.models[model][part]] throws a TypeError when [this.models[model]]
    is undefined. *)
Fixpoint resolveName_loop (this : Schema) (nameParts : list jsstring)
  (model field : jsvalue) : outcome ResolvedName.t :=
  match nameParts with
  | [] => Return (ResolvedName.mk model field)
  | part :: rest =>
      match get_own (models this) (to_key model) with
      | None => Throw TypeError
      | Some fields =>
          match get_own fields part with
          | None => Return (ResolvedName.mk Null Null)
          | Some f =>
              if streq (FieldDef.type f) (js "relation")
              then resolveName_loop this rest (relation_value f) Null
              else resolveName_loop this rest model (Str part)
          end
      end
  end.

Definition resolveName (this : Schema) (name : jsstring) : outcome ResolvedName.t :=
  let nameParts := split_dot name in
  let model := currentModel this in
  if truthy model then resolveName_loop this nameParts model Null
  else Return (ResolvedName.mk model Null).

(** ** getContext (source lines 445-535) *)

Module Scope.
Inductive t := field | comparison | value | logical.
End Scope.

(** The object [getContext] returns; [scope] is [None] for null. *)
Module Context.
Record t := mk {
  prefix : jsstring;
  scope : option Scope.t;
  model : jsvalue;
  field : jsvalue
}.
End Context.

(** [s.match(whitespaceRegex)]: the first run of whitespace anywhere in
    [s] (the expression is not anchored), [None] for null. *)
Fixpoint match_whitespace (s : jsstring) : option jsstring :=
  match s with
  | [] => None
  | c :: s' =>
      if isWhitespace c then Some (take (run isWhitespace s) s)
      else match_whitespace s'
  end.

Definition comparison_operators : list TokenName :=
  [EQUALS; NOT_EQUALS; CONTAINS; NOT_CONTAINS; GREATER_EQUAL; GREATER;
   LESS_EQUAL; LESS].

Definition getContext (d : Discipline) (this : Schema) (text : jsstring)
  (cursorPos : Z) : outcome Context.t :=
  let tokens := lexAll d (slice text 0 cursorPos) in
  let tokens :=
    match last tokens with
    | Some t => if Token.end_ t >=? cursorPos then removelast tokens else tokens
    | None => tokens
    end in
  let lastToken := last tokens in
  let nextToLastToken :=
    if (1 <? length tokens)%nat then tokens !! (length tokens - 2)%nat
    else None in
  let prefix := slice text (from_option Token.end_ 0 lastToken) cursorPos in
  let whitespace := match_whitespace prefix in
  let prefix :=
    match whitespace with
    | Some w => slice_from prefix (Z.of_nat (length w))
    | None => prefix
    end in
  let prefix := if streq prefix (js "(") then [] else prefix in
  let spaced := bool_decide (is_Some whitespace) in
  let last_is names :=
    from_option (fun t => name_in (Token.name t) names) false lastToken in
  if streq prefix (js ")") && negb spaced then
    Return (Context.mk prefix None Null Null)
  else if
    match lastToken with
    | None => true
    | Some t =>
        (name_in (Token.name t) [AND; OR] && spaced)
        || (streq prefix (js ".") && negb spaced)
        || (name_in (Token.name t) [PAREN_L]
            && match nextToLastToken with
               | None => true
               | Some t' => name_in (Token.name t') [AND; OR]
               end)
    end
  then
    prefix ←
      (if streq prefix (js ".") then
         match lastToken with
         | Some t => Return (slice text (Token.start t) cursorPos)
         | None => Throw TypeError
         end
       else Return prefix);
    let nameParts := split_dot prefix in
    if (1 <? length nameParts)%nat then
      let prefix := List.last nameParts [] in
      let nameParts := removelast nameParts in
      resolvedName ← resolveName this (join_dot nameParts);
      if truthy (ResolvedName.model resolvedName)
         && negb (truthy (ResolvedName.field resolvedName))
      then Return (Context.mk prefix (Some Scope.field)
                     (ResolvedName.model resolvedName) Null)
      else Return (Context.mk prefix None Null Null)
    else Return (Context.mk prefix (Some Scope.field) (currentModel this) Null)
  else if
    spaced && last_is comparison_operators
    && from_option (fun t' => name_in (Token.name t') [NAME]) false nextToLastToken
  then
    resolvedName ←
      resolveName this (from_option Token.value [] nextToLastToken);
    if truthy (ResolvedName.model resolvedName)
    then Return (Context.mk prefix (Some Scope.value)
                   (ResolvedName.model resolvedName)
                   (ResolvedName.field resolvedName))
    else Return (Context.mk prefix None Null Null)
  else if spaced && last_is [NAME] then
    resolvedName ← resolveName this (from_option Token.value [] lastToken);
    if truthy (ResolvedName.model resolvedName)
    then Return (Context.mk prefix (Some Scope.comparison)
                   (ResolvedName.model resolvedName)
                   (ResolvedName.field resolvedName))
    else Return (Context.mk prefix None Null Null)
  else if spaced && last_is [PAREN_R; INT_VALUE; FLOAT_VALUE; STRING_VALUE] then
    Return (Context.mk prefix (Some Scope.logical) Null Null)
  else Return (Context.mk prefix None Null Null).

(** ** generateSuggestions (source lines 537-579) *)

(** The input element: its text and selection. *)
Module Input.
Record t := mk { value : jsstring; selectionStart : Z; selectionEnd : Z }.
End Input.

(** What [generateSuggestions] leaves in [this.prefix] and
    [this.suggestions]. *)
Module Completion.
Record t := mk { prefix : jsstring; suggestions : list jsstring }.
End Completion.

(** The [switch] on [context.scope]: the prefix and the unfiltered
    suggestions.  [Object.keys(undefined)] throws a TypeError. *)
Definition candidates (this : Schema) (context : Context.t)
  : outcome Completion.t :=
  let prefix := Context.prefix context in
  match Context.scope context with
  | Some Scope.field =>
      match get_own (models this) (to_key (Context.model context)) with
      | Some fields => Return (Completion.mk prefix (keys fields))
      | None => Throw TypeError
      end
  | Some Scope.comparison =>
      let suggestions := [js "="; js "!="] in
      if truthy (Context.field context) then
        ty ← get_type (Context.field context);
        if negb (strict_eq ty (Str (js "bool"))) then
          let suggestions :=
            if strict_eq ty (Str (js "str"))
            then suggestions ++ [js "~"; js "!~"]
            else suggestions in
          Return (Completion.mk prefix
                    (suggestions ++
                     [js ">"; js ">="; js "<"; js "<="; js "in"; js "not in"]))
        else Return (Completion.mk prefix suggestions)
      else Return (Completion.mk prefix suggestions)
  | Some Scope.logical => Return (Completion.mk prefix [js "and"; js "or"])
  | _ => Return (Completion.mk [] [])
  end.

(** The final [filter]: [item.lastIndexOf(this.prefix, 0) === 0]. *)
Definition filter_suggestions (prefix : jsstring) (suggestions : list jsstring)
  : list jsstring :=
  List.filter (fun item => lastIndexOf item prefix 0 =? 0) suggestions.

Definition generateSuggestions (d : Discipline) (this : Schema) (input : Input.t)
  : outcome Completion.t :=
  if negb (Input.selectionStart input =? Input.selectionEnd input) then
    Return (Completion.mk [] [])
  else
    context ← getContext d this (Input.value input) (Input.selectionStart input);
    c ← candidates this context;
    Return (Completion.mk (Completion.prefix c)
              (filter_suggestions (Completion.prefix c) (Completion.suggestions c))).

(** ** Schemas used in the statements *)

(** The graph of the spec's examples: [Order.customer] is a relation to
    [Customer], [Customer.name] is a [str] field; the root is [Order]. *)
Definition example_schema : Schema :=
  {| currentModel := Str (js "Order");
     models :=
       [(js "Order",
         [(js "customer", FieldDef.mk (js "relation") (Some (js "Customer")))]);
        (js "Customer",
         [(js "name", FieldDef.mk (js "str") None)])] |}.


(** A root model with a [str] field and a [bool] field. *)
Definition typed_schema : Schema :=
  {| currentModel := Str (js "Customer");
     models :=
       [(js "Customer",
         [(js "name", FieldDef.mk (js "str") None);
          (js "active", FieldDef.mk (js "bool") None)])] |}.

(** [m] is a key of [this.models]. *)
Definition has_model (this : Schema) (m : jsstring) : bool :=
  bool_decide (is_Some (get_own (models this) m)).

(** A relation field names a model of the schema. *)
Definition field_closed (this : Schema) (f : FieldDef.t) : bool :=
  if streq (FieldDef.type f) (js "relation") then
    match FieldDef.relation f with
    | Some target => has_model this target
    | None => false
    end
  else true.

(** The schema invariant of the spec's data model: every relation field's
    target is a key of [models]; and the root model, when it is truthy, is
    one too. *)
Definition closed (this : Schema) : bool :=
  (negb (truthy (currentModel this))
   || has_model this (to_key (currentModel this)))
  && forallb (fun entry => forallb (fun fd => field_closed this fd.2) entry.2)
       (models this).

(** Spans of a token list in a text of length [len], from offset [lo] on:
    each token starts at or after the end of the one before it and ends
    within the text; its span is non-empty, unless it is a STRING_VALUE
    with the empty value, whose span is empty. *)
Fixpoint spans_from (len lo : Z) (tokens : list Token.t) : Prop :=
  match tokens with
  | [] => True
  | t :: ts =>
      lo <= Token.start t /\ Token.start t <= Token.end_ t
      /\ Token.end_ t <= len
      /\ (Token.start t < Token.end_ t
          \/ Token.name t = STRING_VALUE /\ Token.value t = []
             /\ Token.start t = Token.end_ t)
      /\ spans_from len (Token.end_ t) ts
  end.

(** The eight suggestions of a comparison that is not restricted to
    equality. *)
Definition ordering_suggestions : list jsstring :=
  [js "="; js "!="; js ">"; js ">="; js "<"; js "<="; js "in"; js "not in"].

(** ** The widget: selection, completion box and key handling
    (source lines 265-329 and 343-416)

    The state of the main object once [init] has run: the schema, the
    prefix and suggestions [generateSuggestions] leaves, the selected
    index, the textarea and the completion box with its list items.  The
    position of the box on the page and the event listeners of the items
    are outside the model; so is the state left behind by a call that
    throws. *)

(** A list item of the completion box: its [data-index] attribute, the
    markup assigned to [innerHTML] and its class. *)
Module Li.
Record t := mk { dataIndex : Z; innerHTML : jsstring; className : jsstring }.
End Li.

(** [this.completion] with [this.completionUL]: the [display] style and
    the [li] children. *)
Module Box.
Record t := mk { display : jsstring; items : list Li.t }.
End Box.

Module Widget.
Record t := mk {
  schema : Schema;
  prefix : jsstring;
  suggestions : list jsstring;
  selected : option Z;
  textarea : option Input.t;
  completion : option Box.t
}.
End Widget.

(** hideCompletion (source lines 358-363) *)
Definition hideCompletion (this : Widget.t) : Widget.t :=
  Widget.mk (Widget.schema this) (Widget.prefix this) (Widget.suggestions this)
    None (Widget.textarea this)
    ((fun box => Box.mk (js "none") (Box.items box)) <$> Widget.completion this).

(** The two loops of [renderCompletion] over the suggestions from index
    [i] on and the list items [li] from that index on: an existing item is
    updated, a missing one is created with [data-index] [i], and the items
    beyond the last suggestion are removed. *)
Fixpoint render_items (prefix : jsstring) (selected : option Z) (i : nat)
  (suggestions : list jsstring) (li : list Li.t) : list Li.t :=
  match suggestions with
  | [] => []
  | s :: rest =>
      let dataIndex :=
        match li with
        | currentLi :: _ => Li.dataIndex currentLi
        | [] => Z.of_nat i
        end in
      Li.mk dataIndex
        (js "<b>" ++ prefix ++ js "</b>"
         ++ slice_from s (Z.of_nat (length prefix)))
        (match selected with
         | Some k => if Z.of_nat i =? k then js "active" else []
         | None => []
         end)
      :: render_items prefix selected (S i) rest (tail li)
  end.

(** renderCompletion (source lines 365-416) *)
Definition renderCompletion (this : Widget.t) (dontForceDisplay : bool)
  : outcome Widget.t :=
  hidden ←
    (if dontForceDisplay then
       match Widget.completion this with
       | Some box => Return (streq (Box.display box) (js "none"))
       | None => Throw TypeError
       end
     else Return false);
  if hidden : bool then Return this
  else
    match Widget.suggestions this with
    | [] => Return (hideCompletion this)
    | _ :: _ =>
        match Widget.completion this, Widget.textarea this with
        | Some box, Some _ =>
            Return (Widget.mk (Widget.schema this) (Widget.prefix this)
                      (Widget.suggestions this) (Widget.selected this)
                      (Widget.textarea this)
                      (Some (Box.mk (js "block")
                               (render_items (Widget.prefix this)
                                  (Widget.selected this) 0
                                  (Widget.suggestions this) (Box.items box)))))
        | _, _ => Throw TypeError
        end
    end.

(** [array[index]] for a number [index]: undefined out of range. *)
Definition at_index {A : Type} (l : list A) (index : Z) : option A :=
  if index <? 0 then None else l !! Z.to_nat index.

(** selectCompletion (source lines 343-356) *)
Definition selectCompletion (this : Widget.t) (index : Z) : outcome Widget.t :=
  match Widget.textarea this with
  | None => Throw TypeError
  | Some textarea =>
      let startPos := Input.selectionStart textarea in
      let textAfter := slice_from (Input.value textarea) startPos in
      let textBefore := slice (Input.value textarea) 0 startPos in
      match at_index (Widget.suggestions this) index with
      | None => Throw TypeError
      | Some suggestion =>
          let textToPaste :=
            slice_from suggestion (Z.of_nat (length (Widget.prefix this))) in
          let cursorPosAfter :=
            Z.of_nat (length textBefore) + Z.of_nat (length textToPaste) in
          renderCompletion
            (Widget.mk (Widget.schema this) (Widget.prefix this) []
               (Widget.selected this)
               (Some (Input.mk (textBefore ++ textToPaste ++ textAfter)
                        cursorPosAfter cursorPosAfter))
               (Widget.completion this))
            false
      end
  end.

(** What a key event does besides changing the widget: [preventDefault],
    the submission of the form, and the callback left with [setTimeout]. *)
Module Effects.
Record t := mk { defaultPrevented : bool; submitted : bool; deferred : bool }.
End Effects.

(** With [selected] replaced. *)
Definition select_index (this : Widget.t) (selected : option Z) : Widget.t :=
  Widget.mk (Widget.schema this) (Widget.prefix this) (Widget.suggestions this)
    selected (Widget.textarea this) (Widget.completion this).

(** onKeydown (source lines 265-329), for the key code of the event. *)
Definition onKeydown (this : Widget.t) (keyCode : Z)
  : outcome (Widget.t * Effects.t) :=
  let len := Z.of_nat (length (Widget.suggestions this)) in
  if keyCode =? 38 then
    if negb (len =? 0) then
      let selected :=
        match Widget.selected this with
        | None => Some (len - 1)
        | Some k => if k =? 0 then None else Some (k - 1)
        end in
      this' ← renderCompletion (select_index this selected) false;
      Return (this', Effects.mk true false false)
    else Return (this, Effects.mk false false false)
  else if keyCode =? 40 then
    if negb (len =? 0) then
      let selected :=
        match Widget.selected this with
        | None => Some 0
        | Some k => if k <? len - 1 then Some (k + 1) else None
        end in
      this' ← renderCompletion (select_index this selected) false;
      Return (this', Effects.mk true false false)
    else Return (this, Effects.mk false false false)
  else if keyCode =? 9 then
    match Widget.selected this with
    | Some k =>
        this' ← selectCompletion this k;
        Return (this', Effects.mk true false false)
    | None => Return (this, Effects.mk false false false)
    end
  else if keyCode =? 13 then
    match Widget.selected this with
    | Some k =>
        this' ← selectCompletion this k;
        Return (this', Effects.mk true false false)
    | None => Return (this, Effects.mk true true false)
    end
  else if keyCode =? 27 then
    Return (hideCompletion this, Effects.mk false false false)
  else Return (this, Effects.mk false false true).

(** The callback [onKeydown] leaves with [setTimeout] for any other key:
    it runs once the textarea holds the new text. *)
Definition onKeydown_deferred (d : Discipline) (this : Widget.t)
  : outcome Widget.t :=
  match Widget.textarea this with
  | None => Throw TypeError
  | Some input =>
      c ← generateSuggestions d (Widget.schema this) input;
      renderCompletion
        (Widget.mk (Widget.schema this) (Completion.prefix c)
           (Completion.suggestions c) None (Widget.textarea this)
           (Widget.completion this))
        false
  end.

(** ** Predicates used in the statements *)

(** The selection is null or the index of a suggestion. *)
Definition valid_selection (this : Widget.t) : Prop :=
  match Widget.selected this with
  | None => True
  | Some k => 0 <= k < Z.of_nat (length (Widget.suggestions this))
  end.

(** Every list item carries its own position as [data-index], counting
    from [i]. *)
Fixpoint indexed_from (i : nat) (li : list Li.t) : Prop :=
  match li with
  | [] => True
  | item :: rest => Li.dataIndex item = Z.of_nat i /\ indexed_from (S i) rest
  end.

(** A name without dots: a name start followed by name characters. *)
Definition is_word (s : jsstring) : bool :=
  match s with
  | c :: s' => isNameStart c && forallb isNameChar s'
  | [] => false
  end.

(** The token name of a word: the keyword it spells, or NAME. *)
Definition word_name (s : jsstring) : TokenName :=
  if streq s (js "or") then OR
  else if streq s (js "and") then AND
  else if streq s (js "not") then NOT
  else if streq s (js "in") then IN
  else if streq s (js "True") then TRUE
  else if streq s (js "False") then FALSE
  else if streq s (js "None") then NONE
  else NAME.

(** The schema with another root model. *)
Definition with_root (this : Schema) (model : jsvalue) : Schema :=
  {| currentModel := model; models := models this |}.

(** * Properties *)

(** ** Strings *)

Lemma starts_with_prefix (p s : jsstring) :
  starts_with p s = true <-> p `prefix_of` s.
Proof.
  revert s. induction p as [|a p IH]; intros [|b s]; simpl.
  - split; [intros _; apply prefix_nil | done].
  - split; [intros _; apply prefix_nil | done].
  - split; [done | intros H; by apply prefix_nil_not in H].
  - rewrite andb_true_iff, N.eqb_eq, IH. split.
    + intros [-> H]. by apply prefix_cons.
    + intros H. split; [by apply prefix_cons_inv_1 in H | by apply prefix_cons_inv_2 in H].
Qed.

Lemma starts_with_length (p s : jsstring) :
  starts_with p s = true -> (length p <= length s)%nat.
Proof. rewrite starts_with_prefix. apply prefix_length. Qed.

Lemma lastIndexOf_at_zero (item p : jsstring) :
  (lastIndexOf item p 0 =? 0) = starts_with p item.
Proof.
  unfold lastIndexOf.
  replace (Z.to_nat _) with O by lia.
  cbn [lastIndexOf_from]. rewrite drop_0.
  destruct (starts_with p item); reflexivity.
Qed.

Lemma filter_suggestions_starts_with (p : jsstring) (l : list jsstring) :
  filter_suggestions p l = List.filter (starts_with p) l.
Proof.
  unfold filter_suggestions. induction l as [|x l IH]; simpl; [done|].
  by rewrite lastIndexOf_at_zero, IH.
Qed.

Lemma list_filter_sublist {A} (f : A -> bool) (l : list A) :
  List.filter f l `sublist_of` l.
Proof.
  induction l as [|x l IH]; simpl; [constructor|].
  destruct (f x); by constructor.
Qed.

(** ** C7: the final filter *)

(** C7: the filter of [generateSuggestions] keeps exactly the candidates
    that begin with the prefix, compared code unit by code unit (so case
    matters), in the order of the unfiltered list: it is the filter by
    [prefix_of], its members are the candidates of the form
    [prefix ++ rest], and it is a subsequence of the candidates;
    [generateSuggestions] applies it to the candidates of the context's
    scope with the prefix it stores.  With prefix [na], the entries of a
    sample list that begin with [na] remain, in their order. *)
Theorem filter_keeps_prefixed_in_order :
  (forall (p : jsstring) (l : list jsstring),
      filter_suggestions p l
      = List.filter (fun item => bool_decide (p `prefix_of` item)) l
      /\ (forall item,
             In item (filter_suggestions p l)
             <-> In item l /\ exists rest, item = p ++ rest)
      /\ filter_suggestions p l `sublist_of` l)
  /\ (forall d this input,
         generateSuggestions d this input
         = if negb (Input.selectionStart input =? Input.selectionEnd input)
           then Return (Completion.mk [] [])
           else
             context ← getContext d this (Input.value input)
                         (Input.selectionStart input);
             c ← candidates this context;
             Return (Completion.mk (Completion.prefix c)
                       (List.filter
                          (fun item => bool_decide (Completion.prefix c `prefix_of` item))
                          (Completion.suggestions c))))
  /\ filter_suggestions (js "na")
       [js "name"; js "id"; js "Name"; js "nationality"; js "n"; js "na"; js "ana"]
     = [js "name"; js "nationality"; js "na"].
Proof.
  assert (Hfilter : forall p l,
             filter_suggestions p l
             = List.filter (fun item => bool_decide (p `prefix_of` item)) l).
  { intros p l. rewrite filter_suggestions_starts_with.
    induction l as [|x l IH]; simpl; [done|]. rewrite IH.
    destruct (starts_with p x) eqn:E.
    - apply starts_with_prefix in E. by rewrite bool_decide_eq_true_2.
    - rewrite bool_decide_eq_false_2; [done|].
      intros H. apply starts_with_prefix in H. congruence. }
  split; [|split].
  - intros p l. split; [apply Hfilter | split].
    + intros item. rewrite filter_suggestions_starts_with, filter_In.
      rewrite starts_with_prefix. done.
    + rewrite filter_suggestions_starts_with. apply list_filter_sublist.
  - intros d this input. unfold generateSuggestions.
    destruct (negb _); [done|].
    destruct (getContext d this _ _) as [context|e]; simpl; [|done].
    destruct (candidates this context) as [c|e]; simpl; [|done].
    by rewrite Hfilter.
  - reflexivity.
Qed.

(** ** Tokens of concrete texts *)

(** C3: each of the texts [!=], [>=], [<=] and [!~] lexes to exactly one
    token, of kind NOT_EQUALS, GREATER_EQUAL, LESS_EQUAL and NOT_CONTAINS
    respectively, spanning both characters; under either discipline of the
    engine. *)
Theorem two_character_operators_are_one_token (d : Discipline) :
  lexAll d (js "!=") = [Token.mk NOT_EQUALS (js "!=") 0 2]
  /\ lexAll d (js ">=") = [Token.mk GREATER_EQUAL (js ">=") 0 2]
  /\ lexAll d (js "<=") = [Token.mk LESS_EQUAL (js "<=") 0 2]
  /\ lexAll d (js "!~") = [Token.mk NOT_CONTAINS (js "!~") 0 2].
Proof. destruct d; repeat split; vm_compute; reflexivity. Qed.


(** C2, at the failing input: the text made of two double quotes lexes to
    one STRING_VALUE token with the empty value, and [lexAll] gives it
    [start = 2 = end]: the start is computed from the length of the trimmed
    value and not from the length of the lexeme. *)
Theorem empty_string_literal_has_empty_span (d : Discipline) :
  lexAll d [dquote; dquote] = [Token.mk STRING_VALUE [] 2 2]
  /\ Forall (fun t => ~ Token.start t < Token.end_ t) (lexAll d [dquote; dquote]).
Proof.
  assert (H : lexAll d [dquote; dquote] = [Token.mk STRING_VALUE [] 2 2])
    by (destruct d; vm_compute; reflexivity).
  split; [exact H|]. rewrite H. repeat constructor. simpl. lia.
Qed.

(** ** Name resolution on the example graph *)



(** ** Contexts of concrete texts *)

(** C6: on the example graph, the text [customer] followed by a space, with
    the cursor at position 9, has scope comparison, model [Customer], field
    null and the empty prefix. *)
Theorem context_after_bare_name (d : Discipline) :
  getContext d example_schema (js "customer ") 9
  = Return (Context.mk [] (Some Scope.comparison) (Str (js "Customer")) Null).
Proof. destruct d; vm_compute; reflexivity. Qed.

(** C9: for every schema, the text [not (] with the cursor at 5 has no
    scope (and [generateSuggestions] leaves no suggestion), while [(] at 1
    and [a and (] at 7 have scope field on the root model.  The same holds
    once the parenthesis is a completed token: [(x] at 2 and [a or ( ] at 7
    have scope field on the root model, [not (x] at 6 and [not ( ] at 6
    have no scope. *)
Theorem paren_after_not_is_not_field_scope (d : Discipline) (this : Schema) :
  getContext d this (js "not (") 5 = Return (Context.mk [] None Null Null)
  /\ generateSuggestions d this (Input.mk (js "not (") 5 5)
     = Return (Completion.mk [] [])
  /\ getContext d this (js "(") 1
     = Return (Context.mk [] (Some Scope.field) (currentModel this) Null)
  /\ getContext d this (js "a and (") 7
     = Return (Context.mk [] (Some Scope.field) (currentModel this) Null)
  /\ getContext d this (js "(x") 2
     = Return (Context.mk (js "x") (Some Scope.field) (currentModel this) Null)
  /\ getContext d this (js "a or ( ") 7
     = Return (Context.mk [] (Some Scope.field) (currentModel this) Null)
  /\ getContext d this (js "not (x") 6
     = Return (Context.mk (js "x") None Null Null)
  /\ getContext d this (js "not ( ") 6
     = Return (Context.mk [] None Null Null).
Proof. destruct d; repeat split; vm_compute; reflexivity. Qed.

(** A dot typed where no token precedes it: the field branch reads
    [lastToken.start] of a null [lastToken], and [getContext] throws. *)
Lemma context_of_leading_dot_throws (d : Discipline) (this : Schema) :
  getContext d this (js ".") 1 = Throw TypeError
  /\ generateSuggestions d this (Input.mk (js ".") 1 1) = Throw TypeError.
Proof. destruct d; split; vm_compute; reflexivity. Qed.

(** ** Comparison suggestions *)

(** C10: in scope comparison with a null field, whatever the model and the
    prefix, the unfiltered suggestions are exactly [=] and [!=]; this is
    the case of a name that resolves to a relation, as [customer] on the
    example graph. *)
Theorem comparison_on_null_field (this : Schema) (prefix : jsstring) (model : jsvalue) :
  candidates this (Context.mk prefix (Some Scope.comparison) model Null)
  = Return (Completion.mk prefix [js "="; js "!="])
  /\ forall d,
       (context ← getContext d example_schema (js "customer ") 9;
        candidates example_schema context)
       = Return (Completion.mk [] [js "="; js "!="]).
Proof. split; [reflexivity | intros []; vm_compute; reflexivity]. Qed.

(** In scope comparison with a field that is a non-empty string, the
    unfiltered suggestions are the eight of [ordering_suggestions], whatever
    the schema says of the field: [context.field] is the field's name, and
    the [type] read off it is undefined. *)
Lemma comparison_on_named_field (this : Schema) (prefix : jsstring)
  (model : jsvalue) (c : char) (name : jsstring) :
  candidates this (Context.mk prefix (Some Scope.comparison) model (Str (c :: name)))
  = Return (Completion.mk prefix ordering_suggestions).
Proof. reflexivity. Qed.

(** C4, at the failing inputs: with root [Customer], [name] a [str] field
    and [active] a [bool] field, the suggestions after [name ] and after
    [active ] are both the eight of [ordering_suggestions]: no [~] and
    [!~] for the string field, and more than [=] and [!=] for the boolean
    one. *)
Theorem comparison_ignores_field_type (d : Discipline) :
  generateSuggestions d typed_schema (Input.mk (js "name ") 5 5)
  = Return (Completion.mk [] ordering_suggestions)
  /\ generateSuggestions d typed_schema (Input.mk (js "active ") 7 7)
     = Return (Completion.mk [] ordering_suggestions)
  /\ getContext d typed_schema (js "name ") 5
     = Return (Context.mk [] (Some Scope.comparison) (Str (js "Customer"))
                 (Str (js "name"))).
Proof. destruct d; repeat split; vm_compute; reflexivity. Qed.

(** ** resolveName on closed schemas *)

Lemma streq_eq (a b : jsstring) : streq a b = true <-> a = b.
Proof.
  revert b. induction a as [|x a IH]; intros [|y b]; simpl; try done.
  rewrite andb_true_iff, N.eqb_eq, IH. split; [intros [-> ->]; done | by intros [= -> ->]].
Qed.

Lemma get_own_In {V : Type} (obj : object V) (key : jsstring) (v : V) :
  get_own obj key = Some v -> exists k, In (k, v) obj.
Proof.
  induction obj as [|[k w] obj IH]; simpl; [done|].
  destruct (streq k key).
  - intros [= ->]. eauto.
  - intros H. destruct (IH H) as [k' Hk']. eauto.
Qed.

Lemma has_model_get (this : Schema) (m : jsstring) :
  has_model this m = true -> exists fields, get_own (models this) m = Some fields.
Proof. unfold has_model. rewrite bool_decide_eq_true. by intros [fields ?]; eauto. Qed.

Lemma closed_field (this : Schema) (m key : jsstring) fields (f : FieldDef.t) :
  closed this = true ->
  get_own (models this) m = Some fields ->
  get_own fields key = Some f ->
  field_closed this f = true.
Proof.
  unfold closed. rewrite andb_true_iff. intros [_ Hall] Hm Hf.
  rewrite forallb_forall in Hall.
  destruct (get_own_In _ _ _ Hm) as [m' Hm'].
  specialize (Hall _ Hm'). simpl in Hall. rewrite forallb_forall in Hall.
  destruct (get_own_In _ _ _ Hf) as [k' Hk'].
  exact (Hall _ Hk').
Qed.

(** From a model of a closed schema the loop returns: null and null, or a
    model of the schema. *)
Lemma resolveName_loop_closed (this : Schema) (nameParts : list jsstring) :
  closed this = true ->
  forall model field,
    has_model this (to_key model) = true ->
    exists r, resolveName_loop this nameParts model field = Return r
              /\ (r = ResolvedName.mk Null Null
                  \/ has_model this (to_key (ResolvedName.model r)) = true).
Proof.
  intros Hclosed. induction nameParts as [|part rest IH]; intros model field Hmodel; simpl.
  - eexists. split; [reflexivity|]. by right.
  - destruct (has_model_get _ _ Hmodel) as [fields Hfields]. rewrite Hfields.
    destruct (get_own fields part) as [f|] eqn:Hf.
    + pose proof (closed_field _ _ _ _ _ Hclosed Hfields Hf) as Hfc.
      unfold field_closed in Hfc.
      destruct (streq (FieldDef.type f) (js "relation")).
      * unfold relation_value.
        destruct (FieldDef.relation f) as [target|]; [|done].
        by apply IH.
      * by apply IH.
    + eexists. split; [reflexivity|]. by left.
Qed.



(** ** Every pattern matches a non-empty lexeme within the input *)

Lemma run_le (p : char -> bool) (s : jsstring) : (run p s <= length s)%nat.
Proof. induction s as [|c s IH]; simpl; [lia|]. destruct (p c); simpl; lia. Qed.

Lemma some_of_bounds (p : char -> bool) (s : jsstring) (n : nat) :
  some_of p s = Some n -> (1 <= n <= length s)%nat.
Proof.
  unfold some_of. pose proof (run_le p s).
  destruct (run p s); [done|]. intros [= <-]. lia.
Qed.

Lemma literal_bounds (lit s : jsstring) (n : nat) :
  literal lit s = Some n -> n = length lit /\ (n <= length s)%nat.
Proof.
  unfold literal. destruct (starts_with lit s) eqn:E; [|done].
  intros [= <-]. split; [done|]. by apply starts_with_length.
Qed.

Lemma keyword_bounds (kw s : jsstring) (n : nat) :
  keyword kw s = Some n -> n = length kw /\ (n <= length s)%nat.
Proof.
  unfold keyword. destruct (starts_with kw s) eqn:E; [|done].
  apply starts_with_length in E.
  destruct (drop (length kw) s) as [|c ?]; [|destruct (isNameChar c)];
    try done; intros [= <-]; done.
Qed.

Lemma name_rest_le (s : jsstring) : (name_rest s <= length s)%nat.
Proof.
  assert (H : forall k s, (length s <= k)%nat -> (name_rest s <= length s)%nat).
  { clear s. induction k as [|k IH]; intros [|c s] Hk; simpl in *; try lia.
    destruct (isNameChar c).
    - specialize (IH s). lia.
    - destruct (c =? 46)%N; [|lia].
      destruct s as [|c2 s]; [lia|].
      destruct (isNameStart c2); simpl in *; [|lia].
      specialize (IH s). lia. }
  by apply (H (length s)).
Qed.

Lemma nameRegex_bounds (s : jsstring) (n : nat) :
  nameRegex s = Some n -> (1 <= n <= length s)%nat.
Proof.
  destruct s as [|c s]; simpl; [done|].
  destruct (isNameStart c); [|done].
  intros [= <-]. pose proof (name_rest_le s). lia.
Qed.

Lemma string_rest_bounds (s : jsstring) (n : nat) :
  string_rest s = Some n -> (1 <= n <= length s)%nat.
Proof.
  assert (H : forall k s n, (length s <= k)%nat ->
                string_rest s = Some n -> (1 <= n <= length s)%nat).
  { clear s n. induction k as [|k IH]; intros [|c s] n Hk; simpl in *; try done; try lia.
    destruct (c =? 34)%N; [intros [= <-]; lia|].
    destruct (c =? 92)%N.
    - destruct s as [|e s2]; [done|].
      destruct (isEscapable e).
      + rewrite fmap_Some. intros (m & Hm & ->).
        apply IH in Hm; simpl in *; lia.
      + destruct (e =? 117)%N; [|done].
        destruct s2 as [|h1 [|h2 [|h3 [|h4 s6]]]]; try done.
        destruct (_ && _); [|done].
        rewrite fmap_Some. intros (m & Hm & ->).
        apply IH in Hm; simpl in *; lia.
    - destruct (isLineTerminator c); [done|].
      rewrite fmap_Some. intros (m & Hm & ->).
      apply IH in Hm; simpl in *; lia. }
  by apply (H (length s)).
Qed.

Lemma stringRegex_bounds (s : jsstring) (n : nat) :
  stringRegex s = Some n -> (2 <= n <= length s)%nat.
Proof.
  destruct s as [|c s]; simpl; [done|].
  destruct (c =? 34)%N; [|done].
  rewrite fmap_Some. intros (m & Hm & ->).
  apply string_rest_bounds in Hm. simpl. lia.
Qed.

Lemma opt_char_le (c : char) (s : jsstring) :
  (opt_char c s <= 1)%nat /\ (opt_char c s <= length s)%nat.
Proof.
  destruct s as [|x s]; simpl; [lia|]. destruct (x =? c)%N; lia.
Qed.

Lemma intRegex_bounds (s : jsstring) (n : nat) :
  intRegex s = Some n -> (1 <= n <= length s)%nat.
Proof.
  unfold intRegex. pose proof (opt_char_le 45 s) as [_ Hs].
  pose proof (length_drop s (opt_char 45 s)) as Hd.
  destruct (drop (opt_char 45 s) s) as [|c r]; [done|]. simpl in Hd.
  destruct (c =? 48)%N; [intros [= <-]; lia|].
  destruct (isDigit19 c); [|done].
  intros [= <-]. pose proof (run_le isDigit r). lia.
Qed.

Lemma fractionPart_bounds (s : jsstring) (n : nat) :
  fractionPart s = Some n -> (2 <= n <= length s)%nat.
Proof.
  destruct s as [|c r]; simpl; [done|].
  destruct (c =? 46)%N; [|done].
  rewrite fmap_Some. intros (m & Hm & ->).
  apply some_of_bounds in Hm. lia.
Qed.

Lemma exponentPart_bounds (s : jsstring) (n : nat) :
  exponentPart s = Some n -> (2 <= n <= length s)%nat.
Proof.
  destruct s as [|c r]; simpl; [done|].
  destruct (_ || _); [|done].
  rewrite fmap_Some. intros (m & Hm & ->).
  apply some_of_bounds in Hm. rewrite length_drop in Hm. lia.
Qed.

Lemma floatRegex_bounds (s : jsstring) (n : nat) :
  floatRegex s = Some n -> (1 <= n <= length s)%nat.
Proof.
  unfold floatRegex. destruct (intRegex s) as [i|] eqn:Hi; [|done].
  apply intRegex_bounds in Hi.
  destruct (fractionPart (drop i s)) as [f|] eqn:Hf.
  - apply fractionPart_bounds in Hf. rewrite length_drop in Hf.
    destruct (exponentPart (drop f (drop i s))) as [e|] eqn:He.
    + apply exponentPart_bounds in He. rewrite !length_drop in He.
      intros [= <-]. lia.
    + intros [= <-]. lia.
  - rewrite fmap_Some. intros (e & He & ->).
    apply exponentPart_bounds in He. rewrite length_drop in He. lia.
Qed.

Lemma pattern_of_bounds (name : TokenName) (s : jsstring) (n : nat) :
  pattern_of name s = Some n -> (1 <= n <= length s)%nat.
Proof.
  destruct name; simpl; intros H;
    first [ apply literal_bounds in H as [-> H]; simpl in *; lia
          | apply keyword_bounds in H as [-> H]; simpl in *; lia
          | by apply nameRegex_bounds
          | apply stringRegex_bounds in H; lia
          | by apply intRegex_bounds
          | by apply floatRegex_bounds ].
Qed.

(** ** The rule the engine selects *)

Lemma longest_elem (ms : list (Rule * nat)) (m : Rule * nat) :
  longest ms = Some m -> In m ms.
Proof.
  revert m. induction ms as [|x ms IH]; simpl; [done|]. intros m.
  destruct (longest ms) as [m'|].
  - destruct (_ <? _)%nat; intros [= <-]; [right; by apply IH | by left].
  - intros [= <-]. by left.
Qed.

Lemma matching_elem (rules : list Rule) (rest : jsstring) (r : Rule) (n : nat) :
  In (r, n) (matching rules rest) -> In r rules /\ pattern r rest = Some n.
Proof.
  unfold matching. rewrite <- !list_elem_of_In, list_elem_of_omap.
  intros (r' & Hr' & H). apply fmap_Some in H as (m & Hm & [= -> ->]). done.
Qed.

Lemma rules_shape (r : Rule) :
  In r registered_rules \/ In r spec_ordered_rules ->
  r = whitespace_rule \/ exists name, r = rule_of name.
Proof.
  unfold registered_rules, spec_ordered_rules.
  intros [[<-|H]|[<-|H]]; auto;
    apply list_elem_of_In, list_elem_of_fmap in H as (name & -> & _); eauto.
Qed.

Lemma head_In {A : Type} (l : list A) (x : A) : head l = Some x -> In x l.
Proof. destruct l as [|y l]; [done|]. intros [= ->]. by left. Qed.

Lemma select_sound (d : Discipline) (rest : jsstring) (r : Rule) (n : nat) :
  select d rest = Some (r, n) ->
  (r = whitespace_rule \/ exists name, r = rule_of name)
  /\ (1 <= n <= length rest)%nat.
Proof.
  intros H.
  assert (Hin : (In r registered_rules \/ In r spec_ordered_rules)
                /\ pattern r rest = Some n).
  { destruct d; unfold select in H.
    - apply head_In, matching_elem in H as [? ?]. auto.
    - apply longest_elem, matching_elem in H as [? ?]. auto. }
  destruct Hin as [Hin Hp]. apply rules_shape in Hin. split; [done|].
  destruct Hin as [->|[name ->]]; cbn [pattern whitespace_rule rule_of] in Hp.
  - by apply some_of_bounds in Hp.
  - by apply pattern_of_bounds in Hp.
Qed.

Lemma slice_length_le (s : jsstring) (a b : Z) :
  (length (slice s a b) <= length s)%nat.
Proof. unfold slice. rewrite length_take, length_drop. lia. Qed.

Lemma action_of_value (name n : TokenName) (l v : jsstring) :
  action_of name l = Some (n, v) ->
  n = name /\ (length v <= length l)%nat /\ (name <> STRING_VALUE -> v = l).
Proof.
  destruct name; simpl; intros [= <- <-];
    repeat split; try done; try lia.
  apply slice_length_le.
Qed.

(** ** lex and lexAll never run out of fuel *)

(** With fuel for the characters left, [lex] ends the input or yields a
    token: the position moves forward, ends within the input and leaves
    room for the value; the token's value is non-empty unless it is a
    STRING_VALUE. *)
Lemma lex_fuel_enough (d : Discipline) (input : jsstring) :
  forall fuel index,
    (index <= length input)%nat ->
    (length input - index < fuel)%nat ->
    lex fuel d input index = EndOfInput
    \/ exists n v index',
         lex fuel d input index = Lexed n v index'
         /\ (index < index')%nat /\ (index + length v <= index')%nat
         /\ (index' <= length input)%nat
         /\ (n <> STRING_VALUE -> v <> []).
Proof.
  induction fuel as [|fuel IH]; intros index Hle Hfuel; [lia|].
  assert (Hskip : forall k, (index < k <= length input)%nat ->
            lex fuel d input k = EndOfInput
            \/ exists n v index',
                 lex fuel d input k = Lexed n v index'
                 /\ (index < index')%nat /\ (index + length v <= index')%nat
                 /\ (index' <= length input)%nat
                 /\ (n <> STRING_VALUE -> v <> [])).
  { intros k Hk.
    destruct (IH k ltac:(lia) ltac:(lia))
      as [->|(n & v & index' & -> & ? & ? & ? & ?)]; [by left|].
    right. exists n, v, index'. repeat split; try done; lia. }
  cbn [lex].
  pose proof (length_drop input index) as Hrest.
  destruct (select d (drop index input)) as [[r len]|] eqn:Hsel.
  - apply select_sound in Hsel as [Hr Hlen].
    destruct Hr as [->|[name ->]]; cbn [action whitespace_rule rule_of].
    + apply Hskip. lia.
    + destruct (action_of name _) as [[n v]|] eqn:Hact.
      * apply action_of_value in Hact as (-> & Hv & Hsame).
        rewrite length_take in Hv.
        right. exists name, v, (index + len)%nat.
        repeat split; try lia.
        intros Hne Hnil. rewrite (Hsame Hne) in Hnil.
        apply (f_equal length) in Hnil. rewrite length_take in Hnil.
        simpl in Hnil. lia.
      * apply Hskip. lia.
  - destruct (drop index input) as [|c rest]; [by left|].
    simpl in Hrest. apply Hskip. lia.
Qed.

Lemma lexAll_loop_spans (d : Discipline) (input : jsstring) :
  forall fuel index,
    (index <= length input)%nat ->
    (length input - index < fuel)%nat ->
    exists tokens,
      lexAll_loop fuel d input index = Some tokens
      /\ spans_from (Z.of_nat (length input)) (Z.of_nat index) tokens.
Proof.
  induction fuel as [|fuel IH]; intros index Hle Hfuel; [lia|]. cbn [lexAll_loop].
  destruct (lex_fuel_enough d input (S (length input)) index Hle ltac:(lia))
    as [->|(n & v & index' & -> & Hlt & Hv & Hend & Hne)].
  - exists []. done.
  - destruct (IH index' Hend ltac:(lia)) as (tokens & -> & Hspans).
    eexists. split; [reflexivity|]. simpl.
    repeat split; try lia; [|exact Hspans].
    destruct v as [|c v].
    + right. repeat split; [|simpl; lia].
      destruct (decide (n = STRING_VALUE)) as [|Hn]; [done|]. by destruct (Hne Hn).
    + left. simpl. lia.
Qed.

(** [lexAll] is total, and its spans are ordered: for every text the loop
    returns a token list within its fuel, and the spans of the tokens are
    as [spans_from] describes, from offset 0. *)
Theorem lexAll_total (d : Discipline) (text : jsstring) :
  lexAll_fuel d text = Some (lexAll d text)
  /\ spans_from (Z.of_nat (length text)) 0 (lexAll d text).
Proof.
  unfold lexAll, lexAll_fuel.
  destruct (lexAll_loop_spans d text (S (length text)) 0 ltac:(lia) ltac:(lia))
    as (tokens & -> & Hspans).
  done.
Qed.

(** * Further properties of the code *)

(** ** split and join *)

Lemma split_dot_nonempty (s : jsstring) : split_dot s <> [].
Proof.
  destruct s as [|c s]; simpl; [done|].
  destruct (c =? 46)%N; [done|]. by destruct (split_dot s).
Qed.

Lemma join_dot_cons (p : jsstring) (ps : list jsstring) :
  ps <> [] -> join_dot (p :: ps) = p ++ 46%N :: join_dot ps.
Proof. by destruct ps. Qed.

Lemma join_split_dot (s : jsstring) : join_dot (split_dot s) = s.
Proof.
  induction s as [|c s IH]; simpl; [done|].
  pose proof (split_dot_nonempty s) as Hne.
  destruct (c =? 46)%N eqn:Hc.
  - apply N.eqb_eq in Hc as ->. rewrite join_dot_cons by done. by rewrite IH.
  - destruct (split_dot s) as [|p ps]; [done|].
    destruct ps as [|q ps]; simpl in *; by rewrite <- IH.
Qed.

Lemma split_dot_parts_have_no_dot (s : jsstring) :
  Forall (fun p => ~ In 46%N p) (split_dot s).
Proof.
  induction s as [|c s IH]; simpl.
  - repeat constructor. by intros [].
  - destruct (c =? 46)%N eqn:Hc.
    + constructor; [by intros []|done].
    + destruct (split_dot s) as [|p ps]; inversion IH; subst.
      * repeat constructor. intros [->|[]]. by rewrite N.eqb_refl in Hc.
      * constructor; [|done]. intros [->|?]; [by rewrite N.eqb_refl in Hc|done].
Qed.

Lemma split_dot_app (a b : jsstring) :
  split_dot (a ++ 46%N :: b) = split_dot a ++ split_dot b.
Proof.
  induction a as [|c a IH]; simpl; [done|].
  destruct (c =? 46)%N; [by rewrite IH|].
  rewrite IH. pose proof (split_dot_nonempty a).
  by destruct (split_dot a).
Qed.

Lemma split_dot_single (p : jsstring) : ~ In 46%N p -> split_dot p = [p].
Proof.
  induction p as [|c p IH]; simpl; [done|]. intros Hp.
  destruct (c =? 46)%N eqn:Hc.
  - apply N.eqb_eq in Hc as ->. destruct Hp. by left.
  - rewrite IH; [done|]. intros ?. apply Hp. by right.
Qed.

Lemma split_join_dot (parts : list jsstring) :
  parts <> [] -> Forall (fun p => ~ In 46%N p) parts ->
  split_dot (join_dot parts) = parts.
Proof.
  induction parts as [|p ps IH]; [done|]. intros _ Hall.
  apply Forall_cons in Hall as [Hp Hps].
  destruct ps as [|q ps].
  - by apply split_dot_single.
  - rewrite join_dot_cons by done.
    rewrite split_dot_app, split_dot_single by done.
    by rewrite IH.
Qed.

Lemma join_dot_snoc (init : list jsstring) (l : jsstring) :
  init <> [] -> join_dot (init ++ [l]) = join_dot init ++ 46%N :: l.
Proof.
  induction init as [|p ps IH]; [done|]. intros _.
  destruct ps as [|q ps]; [done|].
  change ((p :: q :: ps) ++ [l]) with (p :: ((q :: ps) ++ [l])).
  rewrite join_dot_cons by (by destruct ps).
  rewrite IH by done. rewrite (join_dot_cons p (q :: ps)) by done.
  rewrite <- app_assoc. reflexivity.
Qed.

(** [split('.')] and [join('.')] as [getContext] and [resolveName] use
    them: a string always splits into at least one part and no part holds
    a dot; joining the parts gives the string back; the string is the join
    of all parts but the last, a dot when there is more than one part, and
    the last part; and splitting that join again gives all parts but the
    last (the single empty part when there was only one). *)
Theorem split_join_round_trip (s : jsstring) :
  let parts := split_dot s in
  let several := (1 <? length parts)%nat in
  parts <> []
  /\ Forall (fun p => ~ In 46%N p) parts
  /\ join_dot parts = s
  /\ join_dot (removelast parts) ++ (if several then [46%N] else [])
       ++ List.last parts [] = s
  /\ split_dot (join_dot (removelast parts))
     = if several then removelast parts else [[]].
Proof.
  cbv zeta.
  pose proof (split_dot_nonempty s) as Hne.
  pose proof (split_dot_parts_have_no_dot s) as Hdots.
  pose proof (join_split_dot s) as Hjoin.
  repeat split; try done.
  - destruct (split_dot s) as [|l init _] using rev_ind; [done|].
    rewrite removelast_last, last_last, length_app. simpl.
    destruct init as [|p ps]; [done|].
    rewrite join_dot_snoc in Hjoin by done.
    replace (1 <? _)%nat with true by (symmetry; apply Nat.ltb_lt; simpl; lia).
    done.
  - destruct (split_dot s) as [|l init _] using rev_ind; [done|].
    rewrite removelast_last, length_app. simpl.
    destruct init as [|p ps]; [done|].
    replace (1 <? _)%nat with true by (symmetry; apply Nat.ltb_lt; simpl; lia).
    apply split_join_dot; [done|].
    by apply Forall_app in Hdots as [? _].
Qed.

(** ** resolveName along relations *)

Lemma resolveName_loop_root (this : Schema) (root : jsvalue)
  (nameParts : list jsstring) (model field : jsvalue) :
  resolveName_loop (with_root this root) nameParts model field
  = resolveName_loop this nameParts model field.
Proof.
  revert model field. induction nameParts as [|part rest IH]; intros model field; [done|].
  cbn [resolveName_loop with_root models].
  destruct (get_own (models this) (to_key model)) as [fields|]; [|done].
  destruct (get_own fields part) as [f|]; [|done].
  by destruct (streq _ _).
Qed.

Lemma resolveName_loop_app (this : Schema) (parts more : list jsstring) :
  forall model field r,
    resolveName_loop this parts model field = Return r ->
    ResolvedName.model r <> Null ->
    resolveName_loop this (parts ++ more) model field
    = resolveName_loop this more (ResolvedName.model r) (ResolvedName.field r).
Proof.
  induction parts as [|part rest IH]; intros model field r Hr Hmodel.
  - by injection Hr as <-.
  - cbn [resolveName_loop app] in *.
    destruct (get_own (models this) (to_key model)) as [fields|]; [|done].
    destruct (get_own fields part) as [f|].
    + destruct (streq _ _); by apply IH.
    + injection Hr as <-. done.
Qed.

(** Resolution composes along a relation: when the path [a] resolves to a
    model (truthy, with a null field), resolving [a], a dot and [b] from the
    root is resolving [b] from that model. *)
Theorem resolveName_composes (this : Schema) (a b : jsstring) (model : jsvalue) :
  resolveName this a = Return (ResolvedName.mk model Null) ->
  truthy model = true ->
  resolveName this (a ++ 46%N :: b)
  = resolveName (with_root this model) b.
Proof.
  unfold resolveName. intros Ha Hmodel.
  cbn [currentModel with_root]. rewrite Hmodel, resolveName_loop_root.
  destruct (truthy (currentModel this)) eqn:Hroot.
  - rewrite split_dot_app.
    rewrite (resolveName_loop_app _ _ _ _ _ _ Ha); [done|].
    simpl. by destruct model.
  - injection Ha as <-. congruence.
Qed.

Lemma resolveName_composes_witness :
  resolveName example_schema (js "customer" ++ 46%N :: js "name")
  = resolveName (with_root example_schema (Str (js "Customer"))) (js "name").
Proof.
  apply (resolveName_composes example_schema (js "customer") (js "name")
           (Str (js "Customer"))); vm_compute; reflexivity.
Defined.




(** ** The text a token carries *)

Lemma slice_nat (s : jsstring) (a b : nat) :
  (a <= b <= length s)%nat ->
  slice s (Z.of_nat a) (Z.of_nat b) = take (b - a) (drop a s).
Proof.
  intros H. unfold slice, slice_index.
  destruct (Z.ltb_spec (Z.of_nat a) 0); [lia|].
  destruct (Z.ltb_spec (Z.of_nat b) 0); [lia|].
  rewrite !Z.min_l by lia. rewrite Nat2Z.id. f_equal. lia.
Qed.

(** A token [lex] yields comes from a lexeme of the input at or after the
    position it started from. *)
Lemma lex_lexeme (d : Discipline) (input : jsstring) :
  forall fuel index n v index',
    lex fuel d input index = Lexed n v index' ->
    (index <= length input)%nat ->
    exists k len,
      (index <= k)%nat /\ (k + len = index')%nat /\ (1 <= len)%nat
      /\ (index' <= length input)%nat
      /\ action_of n (take len (drop k input)) = Some (n, v).
Proof.
  induction fuel as [|fuel IH]; intros index n v index' Hlex Hle; [done|].
  cbn [lex] in Hlex.
  pose proof (length_drop input index) as Hrest.
  assert (Hnext : forall j, (index <= j <= length input)%nat ->
            lex fuel d input j = Lexed n v index' ->
            exists k len,
              (index <= k)%nat /\ (k + len = index')%nat /\ (1 <= len)%nat
              /\ (index' <= length input)%nat
              /\ action_of n (take len (drop k input)) = Some (n, v)).
  { intros j Hj Hlexj.
    destruct (IH j n v index' Hlexj ltac:(lia)) as (k & len & ? & ? & ? & ? & ?).
    exists k, len. repeat split; try done; lia. }
  destruct (select d (drop index input)) as [[r len]|] eqn:Hsel.
  - apply select_sound in Hsel as [Hr Hlen].
    destruct Hr as [->|[name ->]]; cbn [action whitespace_rule rule_of] in Hlex.
    + apply (Hnext (index + len)%nat); [lia|done].
    + destruct (action_of name _) as [[n' v']|] eqn:Hact.
      * injection Hlex as -> -> <-.
        pose proof (action_of_value _ _ _ _ Hact) as (-> & _ & _).
        exists index, len. repeat split; try done; lia.
      * apply (Hnext (index + len)%nat); [lia|done].
  - destruct (drop index input) as [|c rest]; [done|].
    simpl in Hrest. apply (Hnext (S index)); [lia|done].
Qed.

Lemma action_value_at_span (input : jsstring) (n : TokenName) (v : jsstring)
  (k len : nat) :
  action_of n (take len (drop k input)) = Some (n, v) ->
  (1 <= len)%nat -> (k + len <= length input)%nat ->
  let finish := Z.of_nat (k + len) in
  let begin := finish - Z.of_nat (length v) in
  match n with
  | STRING_VALUE => v = slice input (begin - 1) (finish - 1)
  | _ => v = slice input begin finish
  end.
Proof.
  intros Hact Hlen Hend. cbv zeta.
  assert (Hl : length (take len (drop k input)) = len)
    by (rewrite length_take, length_drop; lia).
  assert (Hplain : n <> STRING_VALUE -> v = slice input
            (Z.of_nat (k + len) - Z.of_nat (length v)) (Z.of_nat (k + len))).
  { intros Hn. apply action_of_value in Hact as (_ & _ & Hv).
    rewrite (Hv Hn), Hl.
    replace (Z.of_nat (k + len) - Z.of_nat len) with (Z.of_nat k) by lia.
    rewrite slice_nat by lia. f_equal. lia. }
  destruct n; try (apply Hplain; discriminate). clear Hplain.
  injection Hact as <-. rewrite Hl.
  destruct (decide (len = 1%nat)) as [->|Hne].
  - assert (Hempty : slice (take 1 (drop k input)) 1 (Z.of_nat 1 - 1) = []).
    { unfold slice, slice_index. rewrite Hl. simpl. done. }
    rewrite Hempty. simpl length.
    replace (Z.of_nat (k + 1) - Z.of_nat 0 - 1) with (Z.of_nat k) by lia.
    replace (Z.of_nat (k + 1) - 1) with (Z.of_nat k) by lia.
    rewrite slice_nat by lia. by rewrite Nat.sub_diag.
  - assert (Hv : slice (take len (drop k input)) 1 (Z.of_nat len - 1)
                 = take (len - 2) (drop (S k) input)).
    { replace 1 with (Z.of_nat 1) by done.
      replace (Z.of_nat len - Z.of_nat 1) with (Z.of_nat (len - 1)) by lia.
      rewrite slice_nat by lia.
      replace (take len (drop k input))
        with (take (1 + (len - 1)) (drop k input)) by (f_equal; lia).
      rewrite <- take_drop_commute, take_take, drop_drop.
      f_equal; [lia|]. f_equal. lia. }
    rewrite Hv. rewrite length_take, length_drop.
    replace (Z.of_nat (k + len) - Z.of_nat (_ `min` _) - 1)
      with (Z.of_nat (S k)) by lia.
    replace (Z.of_nat (k + len) - 1) with (Z.of_nat (k + len - 1)) by lia.
    rewrite slice_nat by lia. f_equal. lia.
Qed.

Lemma lexAll_loop_values (d : Discipline) (input : jsstring) :
  forall fuel index tokens,
    lexAll_loop fuel d input index = Some tokens ->
    (index <= length input)%nat ->
    Forall (fun t =>
              match Token.name t with
              | STRING_VALUE =>
                  Token.value t
                  = slice input (Token.start t - 1) (Token.end_ t - 1)
              | _ => Token.value t = slice input (Token.start t) (Token.end_ t)
              end) tokens.
Proof.
  induction fuel as [|fuel IH]; intros index tokens Hloop Hle; [done|].
  cbn [lexAll_loop] in Hloop.
  destruct (lex _ d input index) as [n v index'| |] eqn:Hlex; [| |done].
  - apply fmap_Some in Hloop as (rest & Hrest & ->).
    destruct (lex_lexeme _ _ _ _ _ _ _ Hlex Hle) as (k & len & ? & <- & ? & ? & Hact).
    constructor; [|by apply (IH (k + len)%nat)].
    cbn [Token.name Token.value Token.start Token.end_].
    by apply action_value_at_span.
  - injection Hloop as <-. constructor.
Qed.

(** Every token carries the text of its span, except that a STRING_VALUE
    carries the text from [start - 1] to [end - 1]: its [start] lies two
    characters after the opening quote of its lexeme, its value begins one
    character after it. *)
Theorem token_values_are_the_text_at_their_spans (d : Discipline) (text : jsstring) :
  Forall (fun t =>
            match Token.name t with
            | STRING_VALUE =>
                Token.value t = slice text (Token.start t - 1) (Token.end_ t - 1)
            | _ => Token.value t = slice text (Token.start t) (Token.end_ t)
            end) (lexAll d text).
Proof.
  unfold lexAll, lexAll_fuel.
  destruct (lexAll_loop _ d text 0) as [tokens|] eqn:Hloop; [|constructor].
  apply (lexAll_loop_values d text (S (length text)) 0%nat tokens Hloop). lia.
Qed.

(** ** Keywords and names *)

Lemma streq_refl (s : jsstring) : streq s s = true.
Proof. by apply streq_eq. Qed.

Lemma name_start_is_name_char (c : char) :
  isNameStart c = true -> isNameChar c = true.
Proof.
  unfold isNameStart, isNameChar. intros H.
  apply orb_true_iff in H as [H|H]; [|by rewrite H, orb_true_r].
  apply orb_true_iff in H as [H|H]; rewrite H; by rewrite ?orb_true_r.
Qed.

(** No pattern other than a keyword or a name begins with a name start. *)
Lemma name_start_head (c : char) :
  isNameStart c = true ->
  isWhitespace c = false /\ isDigit19 c = false
  /\ (forall x, In x [46; 44; 40; 41; 61; 33; 62; 60; 126; 34; 45; 48]%N ->
                (x =? c)%N = false /\ (c =? x)%N = false).
Proof.
  unfold isNameStart, isWhitespace, isDigit19, in_range. intros H.
  rewrite !orb_true_iff, !andb_true_iff, N.eqb_eq, !N.leb_le in H.
  repeat split.
  - rewrite !orb_false_iff, !N.eqb_neq. lia.
  - rewrite andb_false_iff, !N.leb_gt. lia.
  - apply N.eqb_neq. simpl in H0. lia.
  - apply N.eqb_neq. simpl in H0. lia.
Qed.

Lemma word_chars (s : jsstring) :
  is_word s = true -> s <> [] /\ forallb isNameChar s = true.
Proof.
  destruct s as [|c s]; [done|]. simpl. rewrite !andb_true_iff.
  intros [Hc Hs]. split; [done|]. split; [by apply name_start_is_name_char|done].
Qed.

Lemma name_rest_all (s : jsstring) :
  forallb isNameChar s = true -> name_rest s = length s.
Proof.
  induction s as [|c s IH]; simpl; [done|]. rewrite andb_true_iff.
  intros [-> Hs]. by rewrite IH.
Qed.

Lemma literal_other_head (x : char) (lit : jsstring) (c : char) (s : jsstring) :
  (x =? c)%N = false -> literal (x :: lit) (c :: s) = None.
Proof. unfold literal. simpl. by intros ->. Qed.

Lemma keyword_word (kw s : jsstring) :
  is_word s = true ->
  keyword kw s = if streq s kw then Some (length kw) else None.
Proof.
  intros Hw. apply word_chars in Hw as [_ Hall]. unfold keyword.
  destruct (starts_with kw s) eqn:E.
  - apply starts_with_prefix in E as [k ->]. rewrite drop_app_length.
    destruct k as [|c k].
    + by rewrite app_nil_r, streq_refl.
    + rewrite forallb_app in Hall. apply andb_true_iff in Hall as [_ Hall].
      simpl in Hall. apply andb_true_iff in Hall as [-> _].
      destruct (streq (kw ++ c :: k) kw) eqn:Heq; [|done].
      apply streq_eq, (f_equal length) in Heq.
      rewrite length_app in Heq. simpl in Heq. lia.
  - destruct (streq s kw) eqn:Heq; [|done].
    apply streq_eq in Heq as ->.
    assert (starts_with kw kw = true) by (apply starts_with_prefix; done).
    congruence.
Qed.

(** What each registered pattern makes of a word. *)
Lemma pattern_of_word (n : TokenName) (s : jsstring) :
  is_word s = true ->
  pattern_of n s
  = match n with
    | OR => if streq s (js "or") then Some 2%nat else None
    | AND => if streq s (js "and") then Some 3%nat else None
    | NOT => if streq s (js "not") then Some 3%nat else None
    | IN => if streq s (js "in") then Some 2%nat else None
    | TRUE => if streq s (js "True") then Some 4%nat else None
    | FALSE => if streq s (js "False") then Some 5%nat else None
    | NONE => if streq s (js "None") then Some 4%nat else None
    | NAME => Some (length s)
    | _ => None
    end.
Proof.
  intros Hw.
  destruct n; cbn [pattern_of]; try (by rewrite keyword_word).
  all: pose proof (word_chars s Hw) as [_ Hall].
  all: destruct s as [|c s]; [done|].
  all: simpl in Hw; apply andb_true_iff in Hw as [Hc Hs].
  all: destruct (name_start_head c Hc) as (Hws & H19 & Hne).
  all: try (apply literal_other_head; apply Hne; simpl; tauto).
  - simpl. by rewrite Hc, name_rest_all.
  - simpl. destruct (Hne 34%N) as [_ ->]; [simpl; tauto|done].
  - unfold intRegex. simpl. destruct (Hne 45%N) as [_ ->]; [simpl; tauto|].
    simpl. destruct (Hne 48%N) as [_ ->]; [simpl; tauto|]. by rewrite H19.
  - unfold floatRegex, intRegex. simpl.
    destruct (Hne 45%N) as [_ ->]; [simpl; tauto|].
    simpl. destruct (Hne 48%N) as [_ ->]; [simpl; tauto|]. by rewrite H19.
Qed.

Lemma whitespace_of_word (s : jsstring) :
  is_word s = true -> whitespaceRegex s = None.
Proof.
  destruct s as [|c s]; [done|]. simpl. intros Hw.
  apply andb_true_iff in Hw as [Hc _].
  destruct (name_start_head c Hc) as (Hws & _).
  unfold whitespaceRegex, some_of. simpl. by rewrite Hws.
Qed.

Lemma matching_cons_None (r : Rule) (rules : list Rule) (rest : jsstring) :
  pattern r rest = None -> matching (r :: rules) rest = matching rules rest.
Proof. unfold matching. cbn [omap list_omap]. by intros ->. Qed.

Lemma matching_cons_Some (r : Rule) (rules : list Rule) (rest : jsstring) (n : nat) :
  pattern r rest = Some n ->
  matching (r :: rules) rest = (r, n) :: matching rules rest.
Proof. unfold matching. cbn [omap list_omap]. by intros ->. Qed.

(** The rule selected at a word is the rule of its keyword, or NAME. *)
Lemma select_word (d : Discipline) (s : jsstring) :
  is_word s = true ->
  select d s = Some (rule_of (word_name s), length s).
Proof.
  intros Hw.
  assert (Hcases :
    s = js "or" \/ s = js "and" \/ s = js "not" \/ s = js "in"
    \/ s = js "True" \/ s = js "False" \/ s = js "None"
    \/ (streq s (js "or") = false /\ streq s (js "and") = false
        /\ streq s (js "not") = false /\ streq s (js "in") = false
        /\ streq s (js "True") = false /\ streq s (js "False") = false
        /\ streq s (js "None") = false)).
  { destruct (streq s (js "or")) eqn:H1; [left; by apply streq_eq|].
    destruct (streq s (js "and")) eqn:H2; [right; left; by apply streq_eq|].
    destruct (streq s (js "not")) eqn:H3; [do 2 right; left; by apply streq_eq|].
    destruct (streq s (js "in")) eqn:H4; [do 3 right; left; by apply streq_eq|].
    destruct (streq s (js "True")) eqn:H5; [do 4 right; left; by apply streq_eq|].
    destruct (streq s (js "False")) eqn:H6; [do 5 right; left; by apply streq_eq|].
    destruct (streq s (js "None")) eqn:H7; [do 6 right; left; by apply streq_eq|].
    do 7 right. done. }
  destruct Hcases as [->|[->|[->|[->|[->|[->|[->|Hnone]]]]]]].
  1-7: destruct d; vm_compute; reflexivity.
  destruct Hnone as (H1 & H2 & H3 & H4 & H5 & H6 & H7).
  unfold word_name. rewrite H1, H2, H3, H4, H5, H6, H7.
  assert (Hother : forall n,
            n <> NAME -> pattern (rule_of n) s = None).
  { intros n Hn. cbn [pattern rule_of]. rewrite (pattern_of_word n s Hw).
    destruct n; try done; by rewrite ?H1, ?H2, ?H3, ?H4, ?H5, ?H6, ?H7. }
  assert (Hname : pattern (rule_of NAME) s = Some (length s)).
  { cbn [pattern rule_of]. by rewrite (pattern_of_word NAME s Hw). }
  assert (Hws : pattern whitespace_rule s = None)
    by apply (whitespace_of_word s Hw).
  destruct d; unfold select, spec_ordered_rules, registered_rules;
    cbv beta iota delta [fmap list_fmap];
    rewrite (matching_cons_None _ _ _ Hws);
    repeat first
      [ rewrite (matching_cons_Some _ _ _ _ Hname)
      | rewrite matching_cons_None by (apply Hother; discriminate) ];
    reflexivity.
Qed.

(** Keyword or name: a text that is one word, a name start followed by
    name characters, lexes to one token spanning it, whose value is the
    text; its name is the keyword the text spells exactly ([or], [and],
    [not], [in], [True], [False], [None]) and NAME otherwise, so that a
    name beginning with a keyword is one NAME. *)
Theorem word_is_one_token (d : Discipline) (s : jsstring) :
  is_word s = true ->
  lexAll d s = [Token.mk (word_name s) s 0 (Z.of_nat (length s))].
Proof.
  intros Hw. pose proof (select_word d s Hw) as Hsel.
  pose proof (word_chars s Hw) as [Hne _].
  assert (Hact : action_of (word_name s) s = Some (word_name s, s)).
  { unfold word_name. repeat (destruct (streq _ _); [done|]). done. }
  assert (Hend : select d [] = None) by (destruct d; vm_compute; reflexivity).
  unfold lexAll, lexAll_fuel.
  destruct s as [|c s']; [done|]. set (s := c :: s') in *.
  assert (Hlen : length s = S (length s')) by done.
  rewrite Hlen. cbn [lexAll_loop lex]. rewrite drop_0, Hsel.
  cbn [action rule_of]. rewrite take_ge by lia. rewrite Hact. cbn [fmap option_fmap option_map].
  rewrite <- Hlen. cbn [Nat.add].
  destruct (length s) as [|m] eqn:Hm; [done|].
  cbn [lexAll_loop lex]. rewrite <- Hm, drop_all, Hend. simpl.
  do 2 f_equal. lia.
Qed.

Lemma word_is_one_token_witness :
  lexAll LongestMatch (js "oranges")
  = [Token.mk (word_name (js "oranges")) (js "oranges") 0
       (Z.of_nat (length (js "oranges")))].
Proof. apply (word_is_one_token LongestMatch (js "oranges")). reflexivity. Defined.

(** ** getContext and the text before the cursor *)

Lemma slice_suffix (text : jsstring) (a p : Z) :
  slice text a p `suffix_of` slice text 0 p.
Proof.
  unfold slice. set (len := Z.of_nat (length text)).
  assert (Hlen : 0 <= len) by (subst len; lia).
  assert (H0 : slice_index len 0 = 0) by (unfold slice_index; change (0 <? 0) with false; cbv iota; lia).
  rewrite H0, Z.sub_0_r, drop_0.
  assert (Hto : 0 <= slice_index len p)
    by (unfold slice_index; destruct (Z.ltb_spec p 0); lia).
  assert (Hfrom : 0 <= slice_index len a)
    by (unfold slice_index; destruct (Z.ltb_spec a 0); lia).
  destruct (Z.le_gt_cases (slice_index len a) (slice_index len p)).
  - rewrite take_drop_commute.
    replace (Z.to_nat (slice_index len a)
             + Z.to_nat (slice_index len p - slice_index len a))%nat
      with (Z.to_nat (slice_index len p)) by lia.
    apply suffix_drop.
  - replace (Z.to_nat (slice_index len p - slice_index len a)) with O by lia.
    apply suffix_nil.
Qed.

Lemma slice_from_suffix (s : jsstring) (k : Z) : slice_from s k `suffix_of` s.
Proof.
  unfold slice_from, slice. set (len := Z.of_nat (length s)).
  assert (Hlen : 0 <= len) by (subst len; lia).
  assert (Hto : slice_index len len = len) by (unfold slice_index; destruct (Z.ltb_spec len 0); lia).
  assert (Hfrom : 0 <= slice_index len k <= len)
    by (unfold slice_index; destruct (Z.ltb_spec k 0); lia).
  rewrite Hto, take_ge; [apply suffix_drop|].
  rewrite length_drop. lia.
Qed.

Lemma last_split_dot (s : jsstring) :
  List.last (split_dot s) [] `suffix_of` s
  /\ ~ In 46%N (List.last (split_dot s) []).
Proof.
  pose proof (split_dot_nonempty s) as Hne.
  pose proof (split_dot_parts_have_no_dot s) as Hdots.
  pose proof (join_split_dot s) as Hjoin.
  destruct (split_dot s) as [|l init _] using rev_ind; [done|].
  rewrite last_last. rewrite Forall_app, Forall_singleton in Hdots.
  destruct Hdots as [_ Hl]. split; [|exact Hl].
  destruct init as [|p ps]; [simpl in Hjoin; rewrite <- Hjoin; reflexivity|].
  rewrite join_dot_snoc in Hjoin by done. rewrite <- Hjoin.
  apply suffix_app_r. by apply suffix_cons_r.
Qed.

Lemma split_dot_one_part (s : jsstring) :
  (1 <? length (split_dot s))%nat = false -> ~ In 46%N s.
Proof.
  intros Hlen. apply Nat.ltb_ge in Hlen.
  pose proof (split_dot_parts_have_no_dot s) as Hdots.
  pose proof (join_split_dot s) as Hjoin.
  destruct (split_dot s) as [|p [|q ps]]; simpl in *; [subst; tauto| |lia].
  subst. rewrite Forall_singleton in Hdots. exact Hdots.
Qed.

(** Names the intermediate values of [getContext] in the goal. *)
Ltac name_context_parts d text pos :=
  unfold getContext;
  set (tokens0 := lexAll d (slice text 0 pos));
  set (tokens := match last tokens0 with Some t => _ | None => _ end);
  set (lastToken := last tokens);
  set (next := if (1 <? length tokens)%nat then _ else _);
  set (prefix0 := slice text _ pos);
  set (ws := match_whitespace prefix0);
  set (prefix1 := match ws with Some w => _ | None => _ end);
  set (prefix2 := if streq prefix1 (js "(") then [] else prefix1);
  cbv zeta.

Lemma getContext_prefix
  (d : Discipline) (this : Schema) (text : jsstring) (pos : Z) (c : Context.t) :
  getContext d this text pos = Return c ->
  Context.prefix c `suffix_of` slice text 0 pos
  /\ (Context.scope c = Some Scope.field -> ~ In 46%N (Context.prefix c)).
Proof.
  name_context_parts d text pos.
  assert (H0 : prefix0 `suffix_of` slice text 0 pos) by apply slice_suffix.
  assert (H1 : prefix1 `suffix_of` prefix0).
  { subst prefix1. destruct ws; [apply slice_from_suffix|done]. }
  assert (H2 : prefix2 `suffix_of` slice text 0 pos).
  { subst prefix2. destruct (streq prefix1 _); [apply suffix_nil|].
    by etrans. }
  assert (H3 : forall t, slice text (Token.start t) pos `suffix_of` slice text 0 pos)
    by (intros; apply slice_suffix).
  clearbody prefix2 ws next lastToken. clear H0 H1 prefix1 prefix0 tokens tokens0.
  assert (Hfield : forall prefix : jsstring,
    prefix `suffix_of` slice text 0 pos ->
    (if (1 <? length (split_dot prefix))%nat
     then
       resolveName this (join_dot (removelast (split_dot prefix)))
       ≫= (fun resolvedName =>
            if truthy (ResolvedName.model resolvedName)
               && negb (truthy (ResolvedName.field resolvedName))
            then Return (Context.mk (List.last (split_dot prefix) [])
                           (Some Scope.field) (ResolvedName.model resolvedName) Null)
            else Return (Context.mk (List.last (split_dot prefix) []) None Null Null))
     else Return (Context.mk prefix (Some Scope.field) (currentModel this) Null))
    = Return c ->
    Context.prefix c `suffix_of` slice text 0 pos
    /\ (Context.scope c = Some Scope.field -> ~ In 46%N (Context.prefix c))).
  { intros prefix Hp. destruct (last_split_dot prefix) as [Hlast Hnodot].
    destruct (1 <? length (split_dot prefix))%nat eqn:Hlen.
    - unfold mbind, outcome_bind.
      destruct (resolveName this _) as [r|]; [|done].
      destruct (_ && _); intros [= <-]; simpl; (split; [by etrans|done]).
    - intros [= <-]. simpl. split; [done|]. intros _.
      by apply split_dot_one_part. }
  destruct (_ && _); [intros [= <-]; by split|].
  destruct (match lastToken with Some _ => _ | None => _ end).
  { unfold mbind at 1, outcome_bind at 1.
    destruct (streq prefix2 (js ".")).
    - destruct lastToken as [t|]; [|done]. by apply Hfield.
    - by apply Hfield. }
  unfold mbind, outcome_bind.
  repeat (destruct (_ && _);
          [ first [ destruct (resolveName this _) as [r|]; [|done];
                    destruct (truthy _); intros [= <-]; by split
                  | intros [= <-]; by split ] | ]).
  intros [= <-]. by split.
Qed.

(** The prefix [getContext] returns is the end of the text before the
    cursor, and in scope field it holds no dot. *)
Theorem context_prefix_ends_the_text_before_the_cursor
  (d : Discipline) (this : Schema) (text : jsstring) (pos : Z) (c : Context.t) :
  getContext d this text pos = Return c ->
  Context.prefix c `suffix_of` slice text 0 pos
  /\ (Context.scope c = Some Scope.field -> ~ In 46%N (Context.prefix c)).
Proof. apply getContext_prefix. Qed.

Lemma context_prefix_ends_the_text_before_the_cursor_witness :
  js "na" `suffix_of` slice (js "customer.na and") 0 11
  /\ (Some Scope.field = Some Scope.field -> ~ In 46%N (js "na")).
Proof.
  apply (context_prefix_ends_the_text_before_the_cursor LongestMatch
           example_schema (js "customer.na and") 11
           (Context.mk (js "na") (Some Scope.field) (Str (js "Customer")) Null)).
  vm_compute. reflexivity.
Defined.

Lemma slice_before (text : jsstring) (a p : Z) :
  0 <= a -> 0 <= p -> slice (slice text 0 p) a p = slice text a p.
Proof.
  intros Ha Hp.
  assert (Hhead : slice text 0 p = take (Z.to_nat p) text).
  { unfold slice, slice_index. destruct (Z.ltb_spec p 0); [lia|].
    change (0 <? 0) with false. cbv iota.
    rewrite (Z.min_l 0) by lia. rewrite Z.sub_0_r, drop_0.
    destruct (Z.le_gt_cases p (Z.of_nat (length text))).
    - by rewrite Z.min_l by lia.
    - rewrite Z.min_r, Nat2Z.id by lia. rewrite !take_ge; [done|lia|lia]. }
  rewrite Hhead. unfold slice, slice_index. rewrite length_take.
  destruct (Z.ltb_spec a 0); [lia|]. destruct (Z.ltb_spec p 0); [lia|].
  set (len := length text).
  destruct (Z.le_gt_cases a (Z.of_nat (Z.to_nat p `min` len))).
  - rewrite (Z.min_l a) by lia. rewrite (Z.min_l a) by lia.
    rewrite (Z.min_r p (Z.of_nat (Z.to_nat p `min` len))) by lia.
    replace (Z.min p (Z.of_nat len)) with (Z.of_nat (Z.to_nat p `min` len)) by lia.
    rewrite (take_drop_commute text).
    rewrite (take_drop_commute (take (Z.to_nat p) text)).
    rewrite take_take. f_equal. f_equal. lia.
  - replace (Z.to_nat (Z.min p (Z.of_nat (Z.to_nat p `min` len))
                       - Z.min a (Z.of_nat (Z.to_nat p `min` len)))) with O by lia.
    replace (Z.to_nat (Z.min p (Z.of_nat len) - Z.min a (Z.of_nat len)))
      with O by lia.
    done.
Qed.

Lemma spans_from_nonneg (len lo : Z) (tokens : list Token.t) :
  0 <= lo -> spans_from len lo tokens ->
  Forall (fun t => 0 <= Token.start t /\ 0 <= Token.end_ t) tokens.
Proof.
  revert lo. induction tokens as [|t ts IH]; intros lo Hlo; [constructor|].
  simpl. intros (H1 & H2 & _ & _ & Hrest).
  constructor; [lia|]. apply (IH (Token.end_ t)); [lia|done].
Qed.

Lemma lexAll_nonneg (d : Discipline) (text : jsstring) :
  Forall (fun t => 0 <= Token.start t /\ 0 <= Token.end_ t) (lexAll d text).
Proof.
  unfold lexAll, lexAll_fuel.
  destruct (lexAll_loop_spans d text (S (length text)) 0 ltac:(lia) ltac:(lia))
    as (tokens & -> & Hspans).
  simpl. apply (spans_from_nonneg (Z.of_nat (length text)) (Z.of_nat 0)); [lia|done].
Qed.

Lemma Forall_removelast {A : Type} (P : A -> Prop) (l : list A) :
  Forall P l -> Forall P (removelast l).
Proof.
  destruct l as [|x l _] using rev_ind; [done|].
  rewrite removelast_last, Forall_app. by intros [? _].
Qed.

Lemma Forall_last {A : Type} (P : A -> Prop) (l : list A) (x : A) :
  Forall P l -> last l = Some x -> P x.
Proof.
  intros Hall Hlast. apply last_Some in Hlast as [l' ->].
  rewrite Forall_app, Forall_singleton in Hall. by destruct Hall.
Qed.

(** The text at and after the cursor is irrelevant: for a cursor position
    that is not negative, [getContext] gives the same result on the text
    cut at the cursor. *)
Theorem context_ignores_text_after_cursor
  (d : Discipline) (this : Schema) (text : jsstring) (pos : Z) :
  0 <= pos ->
  getContext d this text pos = getContext d this (slice text 0 pos) pos.
Proof.
  intros Hpos. unfold getContext at 2.
  rewrite (slice_before text 0 pos) by lia.
  name_context_parts d text pos.
  assert (Hlast : forall t, lastToken = Some t ->
            0 <= Token.start t /\ 0 <= Token.end_ t).
  { intros t Ht.
    apply (Forall_last (fun t => 0 <= Token.start t /\ 0 <= Token.end_ t) tokens t);
      [|done].
    pose proof (lexAll_nonneg d (slice text 0 pos)) as Hall.
    fold tokens0 in Hall. subst tokens.
    destruct (last tokens0); [|done].
    destruct (_ >=? _); [by apply Forall_removelast|done]. }
  assert (H0 : slice (slice text 0 pos) (from_option Token.end_ 0 lastToken) pos
               = prefix0).
  { subst prefix0. apply slice_before; [|done].
    destruct lastToken as [t|]; simpl; [|lia]. by destruct (Hlast t). }
  rewrite H0. fold ws. fold prefix1. fold prefix2.
  destruct lastToken as [t|]; [|reflexivity].
  rewrite (slice_before text (Token.start t) pos); [reflexivity| |done].
  by destruct (Hlast t).
Qed.

Lemma context_ignores_text_after_cursor_witness :
  getContext LongestMatch example_schema (js "customer.na and") 11
  = getContext LongestMatch example_schema (slice (js "customer.na and") 0 11) 11.
Proof.
  apply (context_ignores_text_after_cursor LongestMatch example_schema
           (js "customer.na and") 11).
  lia.
Defined.

(** ** The start of the input *)



(** ** When getContext throws *)

Lemma resolveName_closed (this : Schema) (name : jsstring) :
  closed this = true -> exists r, resolveName this name = Return r.
Proof.
  intros Hclosed. unfold resolveName.
  destruct (truthy (currentModel this)) eqn:Hroot; [|eauto].
  assert (Hm : has_model this (to_key (currentModel this)) = true).
  { unfold closed in Hclosed. rewrite Hroot in Hclosed. simpl in Hclosed.
    by apply andb_true_iff in Hclosed as [? _]. }
  destruct (resolveName_loop_closed this (split_dot name) Hclosed _ Null Hm)
    as (r & Hr & _).
  eauto.
Qed.

Lemma run_all (p : char -> bool) (s : jsstring) :
  forallb p (take (run p s) s) = true.
Proof.
  induction s as [|c s IH]; simpl; [done|].
  destruct (p c) eqn:Hc; simpl; [by rewrite Hc|done].
Qed.

(** The run [match_whitespace] finds is whitespace, not empty, and a part
    of the string. *)
Lemma match_whitespace_run (s w : jsstring) :
  match_whitespace s = Some w ->
  w <> [] /\ forallb isWhitespace w = true
  /\ exists before after, s = before ++ w ++ after.
Proof.
  revert w. induction s as [|c s IH]; intros w; [done|]. cbn [match_whitespace].
  destruct (isWhitespace c) eqn:Hc.
  - intros [= <-]. split; [simpl; by rewrite Hc|]. split; [apply (run_all isWhitespace (c :: s))|].
    exists [], (drop (run isWhitespace (c :: s)) (c :: s)).
    by rewrite app_nil_l, take_drop.
  - intros H. destruct (IH w H) as (Hne & Hall & before & after & ->).
    repeat split; try done. by exists (c :: before), after.
Qed.

Lemma slice_from_nat (s : jsstring) (k : nat) :
  slice_from s (Z.of_nat k) = drop k s.
Proof.
  unfold slice_from, slice, slice_index.
  destruct (Z.ltb_spec (Z.of_nat k) 0); [lia|].
  destruct (Z.ltb_spec (Z.of_nat (length s)) 0); [lia|].
  rewrite Z.min_id.
  destruct (Nat.le_gt_cases k (length s)).
  - rewrite Z.min_l, Nat2Z.id by lia. rewrite take_ge; [done|].
    rewrite length_drop. lia.
  - rewrite Z.min_r, Nat2Z.id by lia. rewrite drop_all, drop_ge by lia.
    apply take_nil.
Qed.

(** On a schema whose root model and relation targets are keys of
    [models], [getContext] throws only on a dot that no token precedes:
    when it throws, the text before the cursor is a run of whitespace
    (possibly empty) followed by one dot. *)
Theorem context_throws_only_on_leading_dot
  (d : Discipline) (this : Schema) (text : jsstring) (pos : Z) (e : Exception) :
  closed this = true ->
  getContext d this text pos = Throw e ->
  exists w, forallb isWhitespace w = true /\ slice text 0 pos = w ++ js ".".
Proof.
  intros Hclosed.
  name_context_parts d text pos.
  assert (Hresolve : forall name (k : ResolvedName.t -> outcome Context.t),
            (forall r, exists c, k r = Return c) ->
            resolveName this name ≫= k <> Throw e).
  { intros name k Hk. destruct (resolveName_closed this name Hclosed) as [r ->].
    unfold mbind, outcome_bind. destruct (Hk r) as [c ->]. done. }
  assert (Hdot : streq prefix2 (js ".") = true -> lastToken = None ->
            exists w, forallb isWhitespace w = true /\ slice text 0 pos = w ++ js ".").
  { intros Hp2 Hlast. apply streq_eq in Hp2.
    assert (Hp1 : prefix1 = js ".").
    { subst prefix2. destruct (streq prefix1 (js "(")); [done|done]. }
    assert (Hp0 : prefix0 = slice text 0 pos) by (subst prefix0; by rewrite Hlast).
    rewrite <- Hp0. clearbody prefix0. clear Hp0. subst prefix1.
    destruct ws as [w|] eqn:Hws; [|exists []; by rewrite Hp1].
    apply match_whitespace_run in Hws as (Hne & Hall & before & after & ->).
    exists w. split; [done|].
    rewrite slice_from_nat in Hp1.
    destruct before as [|x before].
    - rewrite app_nil_l, drop_app_length in Hp1. by rewrite Hp1.
    - exfalso. destruct w as [|y w _] using rev_ind; [done|].
      rewrite forallb_app in Hall. apply andb_true_iff in Hall as [_ Hy].
      pose proof (f_equal length Hp1) as Hl.
      rewrite length_drop, !length_app in Hl.
      change (length (js ".")) with 1%nat in Hl. cbn [length] in Hl.
      destruct before; [|simpl in Hl; lia]. destruct after; [|simpl in Hl; lia].
      rewrite app_nil_r, length_app in Hp1. simpl in Hp1.
      replace (length w + 1)%nat with (S (length w)) in Hp1 by lia.
      simpl in Hp1. rewrite drop_app_length in Hp1.
      injection Hp1 as ->. done. }
  clearbody prefix2 ws next lastToken. clear prefix1 prefix0 tokens tokens0.
  destruct (_ && _); [done|].
  destruct (match lastToken with Some _ => _ | None => _ end).
  { destruct (streq prefix2 (js ".")) eqn:Hp2.
    - destruct lastToken as [t|]; [|intros _; by apply Hdot].
      unfold mbind at 1, outcome_bind at 1.
      destruct (1 <? _)%nat; [|done]. intros H. exfalso. revert H.
      apply Hresolve. intros r. destruct (_ && _); eauto.
    - unfold mbind at 1, outcome_bind at 1.
      destruct (1 <? _)%nat; [|done]. intros H. exfalso. revert H.
      apply Hresolve. intros r. destruct (_ && _); eauto. }
  repeat (destruct (_ && _);
          [ first [ done
                  | intros H; exfalso; revert H; apply Hresolve;
                    intros r; destruct (truthy _); eauto ] | ]).
  done.
Qed.

Lemma context_throws_only_on_leading_dot_witness :
  exists w, forallb isWhitespace w = true
            /\ slice (js " . ") 0 2 = w ++ js ".".
Proof.
  apply (context_throws_only_on_leading_dot LongestMatch example_schema
           (js " . ") 2 TypeError); vm_compute; reflexivity.
Defined.

(** ** The dot that no token precedes *)

Lemma pattern_of_whitespace (n : TokenName) (c : char) (s : jsstring) :
  isWhitespace c = true -> pattern_of n (c :: s) = None.
Proof.
  unfold isWhitespace. rewrite !orb_true_iff, !N.eqb_eq.
  intros [[[[-> | ->] | ->] | ->] | ->]; destruct n; reflexivity.
Qed.

Lemma run_whitespace_dot (w rest : jsstring) :
  forallb isWhitespace w = true ->
  run isWhitespace (w ++ js "." ++ rest) = length w.
Proof.
  induction w as [|c w IH]; [done|]. simpl. rewrite andb_true_iff.
  intros [-> Hw]. f_equal. by apply IH.
Qed.

(** At whitespace, only the whitespace rule matches. *)
Lemma select_whitespace (d : Discipline) (c : char) (t : jsstring) :
  isWhitespace c = true ->
  select d (c :: t) = Some (whitespace_rule, S (run isWhitespace t)).
Proof.
  intros Hc.
  assert (Hws : pattern whitespace_rule (c :: t) = Some (S (run isWhitespace t))).
  { cbn [pattern whitespace_rule]. unfold whitespaceRegex, some_of.
    cbn [run]. by rewrite Hc. }
  assert (Hother : forall n, pattern (rule_of n) (c :: t) = None).
  { intros n. cbn [pattern rule_of]. by apply pattern_of_whitespace. }
  destruct d; unfold select, spec_ordered_rules, registered_rules;
    cbv beta iota delta [fmap list_fmap];
    rewrite (matching_cons_Some _ _ _ _ Hws);
    repeat rewrite matching_cons_None by apply Hother;
    reflexivity.
Qed.

(** Whitespace and a dot: one DOT token after the whitespace. *)
Lemma lexAll_whitespace_dot (d : Discipline) (w : jsstring) :
  forallb isWhitespace w = true ->
  lexAll d (w ++ js ".")
  = [Token.mk DOT (js ".") (Z.of_nat (length w)) (Z.of_nat (length w) + 1)].
Proof.
  intros Hw.
  assert (Hdot : select d (js ".") = Some (rule_of DOT, 1%nat))
    by (destruct d; vm_compute; reflexivity).
  assert (Hend : select d [] = None) by (destruct d; vm_compute; reflexivity).
  unfold lexAll, lexAll_fuel.
  destruct w as [|c w].
  - destruct d; vm_compute; reflexivity.
  - set (text := (c :: w) ++ js ".").
    assert (Hlen : length text = S (S (length w))).
    { subst text. rewrite length_app. simpl. lia. }
    rewrite Hlen. cbn [lexAll_loop]. rewrite Hlen. cbn [lex].
    rewrite drop_0. subst text.
    assert (Hc : isWhitespace c = true)
      by (simpl in Hw; by apply andb_true_iff in Hw as [Hc _]).
    change ((c :: w) ++ js ".") with (c :: (w ++ js ".")) at 1.
    rewrite (select_whitespace d c _ Hc).
    simpl in Hw. apply andb_true_iff in Hw as [_ Hw].
    pose proof (run_whitespace_dot w [] Hw) as Hrun.
    rewrite app_nil_r in Hrun. rewrite Hrun.
    change (c :: (w ++ js ".")) with ((c :: w) ++ js ".").
    cbn [action whitespace_rule Nat.add].
    change (S (length w)) with (length (c :: w)).
    rewrite drop_app_length, Hdot.
    cbn [action rule_of action_of take token fmap option_fmap option_map].
    rewrite drop_ge by (rewrite length_app; simpl; lia).
    rewrite Hend. cbn [fmap option_fmap option_map default].
    change (take 1 (js ".")) with (js "."). unfold id.
    change (length (js ".")) with 1%nat. cbn [length].
    f_equal. f_equal; lia.
Qed.

(** A dot that only whitespace precedes makes [getContext] throw, whatever
    the schema and whatever follows the cursor: no token precedes the dot,
    so the field branch is taken with [lastToken] null, and
    [lastToken.start] is read. *)
Theorem context_throws_on_leading_dot
  (d : Discipline) (this : Schema) (w rest : jsstring) :
  forallb isWhitespace w = true ->
  getContext d this (w ++ js "." ++ rest) (Z.of_nat (length w) + 1)
  = Throw TypeError.
Proof.
  intros Hw.
  assert (Hhead : slice (w ++ js "." ++ rest) 0 (Z.of_nat (length w) + 1)
                  = w ++ js ".").
  { replace (Z.of_nat (length w) + 1) with (Z.of_nat (length w + 1)) by lia.
    rewrite (slice_nat _ 0 (length w + 1)).
    - rewrite drop_0, Nat.sub_0_r, app_assoc.
      replace (length w + 1)%nat with (length (w ++ js "."))
        by (rewrite length_app; done).
      apply take_app_length.
    - rewrite !length_app. simpl. lia. }
  unfold getContext. rewrite Hhead, (lexAll_whitespace_dot d w Hw).
  cbn [last Token.end_]. rewrite (proj2 (Z.geb_le _ _)) by lia.
  cbn [removelast last from_option length Nat.ltb Nat.leb]. rewrite Hhead.
  assert (Hmatch : match match_whitespace (w ++ js ".") with
                   | Some w' => slice_from (w ++ js ".") (Z.of_nat (length w'))
                   | None => w ++ js "."
                   end = js ".").
  { destruct w as [|c w]; [done|].
    assert (Hc : isWhitespace c = true)
      by (simpl in Hw; by apply andb_true_iff in Hw as [Hc _]).
    change ((c :: w) ++ js ".") with (c :: (w ++ js ".")) at 1.
    cbn [match_whitespace]. rewrite Hc.
    change (c :: (w ++ js ".")) with ((c :: w) ++ js "." ++ []).
    rewrite (run_whitespace_dot (c :: w) [] Hw), app_nil_r.
    rewrite take_app_length, slice_from_nat, drop_app_length. done. }
  rewrite Hmatch. reflexivity.
Qed.

Lemma context_throws_on_leading_dot_witness :
  forallb isWhitespace (js "  ") = true
  /\ getContext FirstMatch example_schema (js "  " ++ js "." ++ js "x")
       (Z.of_nat (length (js "  ")) + 1)
     = Throw TypeError.
Proof.
  split; [reflexivity|].
  apply (context_throws_on_leading_dot FirstMatch example_schema (js "  ") (js "x")).
  reflexivity.
Defined.

(** ** The context after a word *)

Lemma whitespace_not_name (c : char) :
  isWhitespace c = true -> isNameChar c = false /\ (c =? 46)%N = false.
Proof.
  unfold isWhitespace. rewrite !orb_true_iff, !N.eqb_eq.
  intros [[[[-> | ->] | ->] | ->] | ->]; split; reflexivity.
Qed.

Lemma run_forallb (p : char -> bool) (w : jsstring) :
  forallb p w = true -> run p w = length w.
Proof.
  induction w as [|c w IH]; simpl; [done|]. rewrite andb_true_iff.
  intros [-> Hw]. by rewrite IH.
Qed.

Lemma name_rest_then (s : jsstring) (c : char) (r : jsstring) :
  forallb isNameChar s = true -> isNameChar c = false -> (c =? 46)%N = false ->
  name_rest (s ++ c :: r) = length s.
Proof.
  intros Hs Hc Hdot. induction s as [|x s IH]; simpl.
  - by rewrite Hc, Hdot.
  - simpl in Hs. apply andb_true_iff in Hs as [-> Hs]. by rewrite IH.
Qed.

(** A keyword matches at a word that something other than a name character
    follows exactly when the word spells it. *)
Lemma keyword_word_then (kw s : jsstring) (c : char) (r : jsstring) :
  is_word s = true -> forallb isNameChar kw = true -> isNameChar c = false ->
  keyword kw (s ++ c :: r) = if streq s kw then Some (length kw) else None.
Proof.
  intros Hw Hkw Hc. apply word_chars in Hw as [_ Hall]. unfold keyword.
  destruct (starts_with kw (s ++ c :: r)) eqn:E.
  - apply starts_with_prefix in E as [k Hk].
    apply app_eq_app in Hk as [l [[-> ->] | [-> Hl]]].
    + rewrite <- app_assoc, drop_app_length.
      destruct l as [|x l].
      * rewrite app_nil_l, Hc, app_nil_r. by rewrite streq_refl.
      * rewrite forallb_app in Hall. simpl in Hall.
        rewrite !andb_true_iff in Hall. destruct Hall as (_ & Hx & _).
        rewrite <- app_comm_cons. rewrite Hx.
        destruct (streq (kw ++ x :: l) kw) eqn:Heq; [|done].
        apply streq_eq, (f_equal length) in Heq.
        rewrite length_app in Heq. simpl in Heq. lia.
    + destruct l as [|x l].
      * rewrite app_nil_r, drop_app_length, Hc. by rewrite streq_refl.
      * exfalso. rewrite forallb_app in Hkw. simpl in Hkw.
        rewrite !andb_true_iff in Hkw. destruct Hkw as (_ & Hx & _).
        injection Hl as <- _. congruence.
  - destruct (streq s kw) eqn:Heq; [|done].
    apply streq_eq in Heq as ->.
    assert (starts_with kw (kw ++ c :: r) = true)
      by (apply starts_with_prefix; by eexists).
    congruence.
Qed.

(** What each registered pattern makes of a word that whitespace follows. *)
Lemma pattern_of_word_then (n : TokenName) (s : jsstring) (c : char) (r : jsstring) :
  is_word s = true -> isWhitespace c = true ->
  pattern_of n (s ++ c :: r)
  = match n with
    | OR => if streq s (js "or") then Some 2%nat else None
    | AND => if streq s (js "and") then Some 3%nat else None
    | NOT => if streq s (js "not") then Some 3%nat else None
    | IN => if streq s (js "in") then Some 2%nat else None
    | TRUE => if streq s (js "True") then Some 4%nat else None
    | FALSE => if streq s (js "False") then Some 5%nat else None
    | NONE => if streq s (js "None") then Some 4%nat else None
    | NAME => Some (length s)
    | _ => None
    end.
Proof.
  intros Hw Hc. destruct (whitespace_not_name c Hc) as [Hname Hdot].
  destruct n; cbn [pattern_of];
    try (by rewrite keyword_word_then).
  all: pose proof (word_chars s Hw) as [_ Hall].
  all: destruct s as [|c0 s]; [done|].
  all: simpl in Hw; apply andb_true_iff in Hw as [Hc0 Hs].
  all: destruct (name_start_head c0 Hc0) as (Hws & H19 & Hne).
  all: rewrite <- app_comm_cons.
  all: try (apply literal_other_head; apply Hne; simpl; tauto).
  - simpl. rewrite Hc0. by rewrite name_rest_then.
  - simpl. destruct (Hne 34%N) as [_ ->]; [simpl; tauto|done].
  - unfold intRegex. simpl. destruct (Hne 45%N) as [_ ->]; [simpl; tauto|].
    simpl. destruct (Hne 48%N) as [_ ->]; [simpl; tauto|]. by rewrite H19.
  - unfold floatRegex, intRegex. simpl.
    destruct (Hne 45%N) as [_ ->]; [simpl; tauto|].
    simpl. destruct (Hne 48%N) as [_ ->]; [simpl; tauto|]. by rewrite H19.
Qed.

(** The rule selected at a word that whitespace follows is the rule of its
    keyword, or NAME: under both disciplines a keyword wins over NAME,
    which matches the same lexeme. *)
Lemma select_word_then (d : Discipline) (s : jsstring) (c : char) (r : jsstring) :
  is_word s = true -> isWhitespace c = true ->
  select d (s ++ c :: r) = Some (rule_of (word_name s), length s).
Proof.
  intros Hw Hc.
  assert (Hpat : forall n, pattern (rule_of n) (s ++ c :: r) = _)
    by (intros n; exact (pattern_of_word_then n s c r Hw Hc)).
  assert (Hws : pattern whitespace_rule (s ++ c :: r) = None).
  { destruct s as [|c0 s]; [done|]. simpl in Hw.
    apply andb_true_iff in Hw as [Hc0 _].
    destruct (name_start_head c0 Hc0) as (Hc0ws & _).
    cbn [pattern whitespace_rule]. unfold whitespaceRegex, some_of.
    rewrite <- app_comm_cons. cbn [run]. by rewrite Hc0ws. }
  assert (Hcases :
    s = js "or" \/ s = js "and" \/ s = js "not" \/ s = js "in"
    \/ s = js "True" \/ s = js "False" \/ s = js "None"
    \/ (streq s (js "or") = false /\ streq s (js "and") = false
        /\ streq s (js "not") = false /\ streq s (js "in") = false
        /\ streq s (js "True") = false /\ streq s (js "False") = false
        /\ streq s (js "None") = false)).
  { destruct (streq s (js "or")) eqn:H1; [left; by apply streq_eq|].
    destruct (streq s (js "and")) eqn:H2; [right; left; by apply streq_eq|].
    destruct (streq s (js "not")) eqn:H3; [do 2 right; left; by apply streq_eq|].
    destruct (streq s (js "in")) eqn:H4; [do 3 right; left; by apply streq_eq|].
    destruct (streq s (js "True")) eqn:H5; [do 4 right; left; by apply streq_eq|].
    destruct (streq s (js "False")) eqn:H6; [do 5 right; left; by apply streq_eq|].
    destruct (streq s (js "None")) eqn:H7; [do 6 right; left; by apply streq_eq|].
    do 7 right. done. }
  destruct Hcases as [->|[->|[->|[->|[->|[->|[->|Hnone]]]]]]].
  1-7: destruct d; unfold select, spec_ordered_rules, registered_rules;
    cbv beta iota delta [fmap list_fmap];
    rewrite (matching_cons_None _ _ _ Hws);
    repeat first
      [ rewrite matching_cons_None by (rewrite Hpat; reflexivity)
      | erewrite matching_cons_Some by (rewrite Hpat; reflexivity) ];
    reflexivity.
  destruct Hnone as (H1 & H2 & H3 & H4 & H5 & H6 & H7).
  unfold word_name. rewrite H1, H2, H3, H4, H5, H6, H7.
  destruct d; unfold select, spec_ordered_rules, registered_rules;
    cbv beta iota delta [fmap list_fmap];
    rewrite (matching_cons_None _ _ _ Hws);
    repeat first
      [ rewrite matching_cons_None
          by (rewrite Hpat, ?H1, ?H2, ?H3, ?H4, ?H5, ?H6, ?H7; reflexivity)
      | erewrite matching_cons_Some by (rewrite Hpat; reflexivity) ];
    reflexivity.
Qed.

(** A word and whitespace: one token, the word. *)
Lemma lexAll_word_then (d : Discipline) (s w : jsstring) :
  is_word s = true -> w <> [] -> forallb isWhitespace w = true ->
  lexAll d (s ++ w) = [Token.mk (word_name s) s 0 (Z.of_nat (length s))].
Proof.
  intros Hw Hne Hall.
  destruct w as [|c w]; [done|]. clear Hne.
  simpl in Hall. apply andb_true_iff in Hall as [Hc Hall].
  pose proof (select_word_then d s c w Hw Hc) as Hsel.
  assert (Hact : action_of (word_name s) s = Some (word_name s, s)).
  { unfold word_name. repeat (destruct (streq _ _); [done|]). done. }
  assert (Hend : select d [] = None) by (destruct d; vm_compute; reflexivity).
  pose proof (word_chars s Hw) as [Hs _].
  unfold lexAll, lexAll_fuel.
  set (text := s ++ c :: w).
  assert (Hlen : length text = S (S (length s - 1 + length w))).
  { subst text. rewrite length_app. destruct s; [done|]. simpl. lia. }
  rewrite Hlen. cbn [lexAll_loop]. rewrite Hlen. cbn [lex].
  rewrite drop_0. subst text. rewrite Hsel.
  cbn [action rule_of Nat.add]. rewrite take_app_length, Hact.
  rewrite drop_app_length, (select_whitespace d c w Hc).
  cbn [action whitespace_rule]. rewrite (run_forallb _ w Hall).
  rewrite drop_ge by (rewrite length_app; simpl; lia).
  rewrite Hend. cbn [fmap option_fmap option_map default]. unfold id.
  f_equal. f_equal. lia.
Qed.

Lemma slice_app_middle (a b c : jsstring) :
  slice (a ++ b ++ c) (Z.of_nat (length a)) (Z.of_nat (length (a ++ b))) = b.
Proof.
  rewrite slice_nat by (rewrite !length_app; lia).
  rewrite drop_app_length, length_app.
  replace (length a + length b - length a)%nat with (length b) by lia.
  apply take_app_length.
Qed.

(** After a word and whitespace, with the cursor behind the whitespace:
    [and] and [or] open a field scope on the root model, a name opens a
    comparison scope on the model and field it resolves to (no scope when
    it resolves to no model), and the other keywords give no scope.  The
    prefix is empty, and the text behind the cursor plays no part. *)
Theorem context_after_a_word
  (d : Discipline) (this : Schema) (s w rest : jsstring) :
  is_word s = true -> w <> [] -> forallb isWhitespace w = true ->
  getContext d this (s ++ w ++ rest) (Z.of_nat (length (s ++ w)))
  = match word_name s with
    | AND | OR => Return (Context.mk [] (Some Scope.field) (currentModel this) Null)
    | NAME =>
        resolvedName ← resolveName this s;
        if truthy (ResolvedName.model resolvedName)
        then Return (Context.mk [] (Some Scope.comparison)
                       (ResolvedName.model resolvedName)
                       (ResolvedName.field resolvedName))
        else Return (Context.mk [] None Null Null)
    | _ => Return (Context.mk [] None Null Null)
    end.
Proof.
  intros Hw Hne Hall.
  assert (Hhead : slice (s ++ w ++ rest) 0 (Z.of_nat (length (s ++ w))) = s ++ w).
  { pose proof (slice_app_middle [] (s ++ w) rest) as H.
    rewrite !app_nil_l, <- app_assoc in H. exact H. }
  assert (Htail : slice (s ++ w ++ rest) (Z.of_nat (length s))
                    (Z.of_nat (length (s ++ w))) = w)
    by apply slice_app_middle.
  assert (Hmatch : match_whitespace w = Some w).
  { destruct w as [|c w]; [done|]. cbn [match_whitespace].
    pose proof Hall as Hrun. apply run_forallb in Hrun.
    simpl in Hall. apply andb_true_iff in Hall as [-> _].
    by rewrite Hrun, firstn_all. }
  assert (Hlen : (Z.of_nat (length s) >=? Z.of_nat (length (s ++ w))) = false).
  { rewrite Z.geb_leb. apply Z.leb_gt. rewrite length_app.
    destruct w; [done|]. simpl. lia. }
  unfold getContext. rewrite Hhead, (lexAll_word_then d s w Hw Hne Hall).
  cbn [last Token.end_]. rewrite Hlen.
  cbn [last from_option length Nat.ltb Nat.leb Token.end_]. rewrite Htail, Hmatch.
  rewrite slice_from_nat, drop_all.
  assert (Hname : In (word_name s) [OR; AND; NOT; IN; TRUE; FALSE; NONE; NAME]).
  { unfold word_name. repeat (destruct (streq s _); [simpl; tauto|]). simpl; tauto. }
  simpl in Hname.
  destruct Hname as [<-|[<-|[<-|[<-|[<-|[<-|[<-|[<-|[]]]]]]]]]; reflexivity.
Qed.

Lemma context_after_a_word_witness :
  getContext LongestMatch example_schema (js "customer" ++ js "  " ++ js "= 1")
    (Z.of_nat (length (js "customer" ++ js "  ")))
  = match word_name (js "customer") with
    | AND | OR =>
        Return (Context.mk [] (Some Scope.field) (currentModel example_schema) Null)
    | NAME =>
        resolvedName ← resolveName example_schema (js "customer");
        if truthy (ResolvedName.model resolvedName)
        then Return (Context.mk [] (Some Scope.comparison)
                       (ResolvedName.model resolvedName)
                       (ResolvedName.field resolvedName))
        else Return (Context.mk [] None Null Null)
    | _ => Return (Context.mk [] None Null Null)
    end.
Proof.
  apply (context_after_a_word LongestMatch example_schema
           (js "customer") (js "  ") (js "= 1")); [reflexivity|done|reflexivity].
Defined.

(** ** What generateSuggestions leaves behind *)

Lemma candidates_prefix (this : Schema) (context : Context.t) (c : Completion.t) :
  candidates this context = Return c ->
  Completion.prefix c = Context.prefix context \/ Completion.prefix c = [].
Proof.
  unfold candidates, mbind, outcome_bind.
  destruct (Context.scope context) as [[| | |]|].
  - destruct (get_own _ _); [|done]. intros [= <-]. by left.
  - destruct (truthy _); [|intros [= <-]; by left].
    destruct (get_type _); [|done].
    destruct (negb _); intros [= <-]; by left.
  - intros [= <-]. by right.
  - intros [= <-]. by left.
  - intros [= <-]. by right.
Qed.

Lemma generateSuggestions_consistent
  (d : Discipline) (this : Schema) (input : Input.t) (c : Completion.t) :
  generateSuggestions d this input = Return c ->
  Completion.prefix c
    `suffix_of` slice (Input.value input) 0 (Input.selectionStart input)
  /\ Forall (fun s => Completion.prefix c `prefix_of` s) (Completion.suggestions c).
Proof.
  unfold generateSuggestions, mbind, outcome_bind.
  destruct (negb _).
  { intros [= <-]. split; [apply suffix_nil|constructor]. }
  destruct (getContext d this _ _) as [context|] eqn:Hctx; [|done].
  destruct (candidates this context) as [cand|] eqn:Hcand; [|done].
  intros [= <-]. cbn [Completion.prefix Completion.suggestions]. split.
  - destruct (candidates_prefix _ _ _ Hcand) as [->| ->]; [|apply suffix_nil].
    by apply (getContext_prefix d this _ _ context).
  - rewrite filter_suggestions_starts_with. apply Forall_forall. intros s Hs.
    apply list_elem_of_In, filter_In in Hs as [_ Hs]. by apply starts_with_prefix.
Qed.

(** Whatever the schema, the text and the selection, the prefix
    [generateSuggestions] leaves is the end of the text before the cursor
    and every suggestion it leaves begins with that prefix. *)
Theorem suggestions_extend_the_typed_prefix
  (d : Discipline) (this : Schema) (input : Input.t) (c : Completion.t) :
  generateSuggestions d this input = Return c ->
  Completion.prefix c
    `suffix_of` slice (Input.value input) 0 (Input.selectionStart input)
  /\ Forall (fun s => Completion.prefix c `prefix_of` s) (Completion.suggestions c).
Proof. apply generateSuggestions_consistent. Qed.

Lemma suggestions_extend_the_typed_prefix_witness :
  js "na" `suffix_of` slice (js "customer.na") 0 11
  /\ Forall (fun s => js "na" `prefix_of` s) [js "name"].
Proof.
  apply (suggestions_extend_the_typed_prefix LongestMatch example_schema
           (Input.mk (js "customer.na") 11 11)
           (Completion.mk (js "na") [js "name"])).
  vm_compute. reflexivity.
Defined.

(** In scope comparison the suggestions do not depend on the schema: for
    every schema, model, prefix and field value they are [=] and [!=], or
    the eight of [ordering_suggestions] when the field is a non-empty
    string; [~] and [!~] are never among them. *)
Theorem comparison_suggestions_ignore_the_schema
  (this : Schema) (prefix : jsstring) (model field : jsvalue) :
  let l := if truthy field then ordering_suggestions else [js "="; js "!="] in
  candidates this (Context.mk prefix (Some Scope.comparison) model field)
  = Return (Completion.mk prefix l)
  /\ ~ In (js "~") l /\ ~ In (js "!~") l.
Proof.
  cbv zeta. split.
  - destruct field as [| |[|c s]]; reflexivity.
  - destruct (truthy field); split; intros H; simpl in H;
      repeat (destruct H as [H|H]; [discriminate H|]); exact H.
Qed.

(** ** The completion box *)

Lemma render_items_length (prefix : jsstring) (selected : option Z)
  (suggestions : list jsstring) :
  forall i li, length (render_items prefix selected i suggestions li)
               = length suggestions.
Proof.
  induction suggestions as [|s rest IH]; intros i li; simpl; [done|].
  by rewrite IH.
Qed.

Lemma render_items_indexed (prefix : jsstring) (selected : option Z)
  (suggestions : list jsstring) :
  forall i li,
    indexed_from i li ->
    indexed_from i (render_items prefix selected i suggestions li).
Proof.
  induction suggestions as [|s rest IH]; intros i li Hli; [done|].
  cbn [render_items indexed_from Li.dataIndex]. split.
  - destruct li as [|item li]; [done|]. by destruct Hli.
  - apply IH. destruct li as [|item li]; [done|]. by destruct Hli.
Qed.

Lemma render_items_lookup (prefix : jsstring) (selected : option Z)
  (suggestions : list jsstring) :
  forall i li j s,
    suggestions !! j = Some s ->
    exists item,
      render_items prefix selected i suggestions li !! j = Some item
      /\ Li.innerHTML item
         = js "<b>" ++ prefix ++ js "</b>"
           ++ slice_from s (Z.of_nat (length prefix))
      /\ Li.className item
         = match selected with
           | Some k => if Z.of_nat (i + j) =? k then js "active" else []
           | None => []
           end.
Proof.
  induction suggestions as [|s' rest IH]; intros i li j s Hs; [done|].
  destruct j as [|j].
  - injection Hs as ->. eexists. split; [reflexivity|].
    cbn [Li.innerHTML Li.className]. rewrite Nat.add_0_r. done.
  - cbn [render_items]. destruct (IH (S i) (tail li) j s Hs) as (item & Hitem & Hhtml & Hclass).
    exists item. split; [exact Hitem|]. split; [done|].
    by replace (i + S j)%nat with (S i + j)%nat by lia.
Qed.

Lemma renderCompletion_forced (this : Widget.t) (box : Box.t) (input : Input.t) :
  Widget.completion this = Some box ->
  Widget.textarea this = Some input ->
  Widget.suggestions this <> [] ->
  renderCompletion this false
  = Return (Widget.mk (Widget.schema this) (Widget.prefix this)
              (Widget.suggestions this) (Widget.selected this)
              (Widget.textarea this)
              (Some (Box.mk (js "block")
                       (render_items (Widget.prefix this) (Widget.selected this) 0
                          (Widget.suggestions this) (Box.items box))))).
Proof.
  intros Hbox Hinput Hne. unfold renderCompletion. cbn [mbind outcome_bind].
  destruct (Widget.suggestions this) as [|s rest] eqn:Hs; [done|].
  by rewrite Hbox, Hinput.
Qed.

(** A forced rendering with suggestions shows the box with one item per
    suggestion, in order: item [i] holds the prefix in bold followed by the
    rest of suggestion [i], it is the active one exactly when [i] is the
    selected index, and, if every item carried its position as
    [data-index] before, every item does so afterwards. *)
Theorem rendering_lists_the_suggestions
  (this : Widget.t) (box : Box.t) (input : Input.t) :
  Widget.completion this = Some box ->
  Widget.textarea this = Some input ->
  Widget.suggestions this <> [] ->
  exists items,
    renderCompletion this false
    = Return (Widget.mk (Widget.schema this) (Widget.prefix this)
                (Widget.suggestions this) (Widget.selected this)
                (Widget.textarea this) (Some (Box.mk (js "block") items)))
    /\ length items = length (Widget.suggestions this)
    /\ (indexed_from 0 (Box.items box) -> indexed_from 0 items)
    /\ forall i s,
         Widget.suggestions this !! i = Some s ->
         exists item,
           items !! i = Some item
           /\ Li.innerHTML item
              = js "<b>" ++ Widget.prefix this ++ js "</b>"
                ++ slice_from s (Z.of_nat (length (Widget.prefix this)))
           /\ Li.className item
              = if bool_decide (Widget.selected this = Some (Z.of_nat i))
                then js "active" else [].
Proof.
  intros Hbox Hinput Hne. eexists.
  split; [by apply (renderCompletion_forced this box input)|].
  split; [apply render_items_length|].
  split; [apply render_items_indexed|].
  intros i s Hs.
  destruct (render_items_lookup (Widget.prefix this) (Widget.selected this)
              (Widget.suggestions this) 0 (Box.items box) i s Hs)
    as (item & Hitem & Hhtml & Hclass).
  exists item. split; [done|]. split; [done|]. rewrite Hclass.
  destruct (Widget.selected this) as [k|]; [|done]. cbn [Nat.add].
  destruct (Z.eqb_spec (Z.of_nat i) k) as [<-|Hne'].
  - by rewrite bool_decide_eq_true_2.
  - rewrite bool_decide_eq_false_2; [done|]. intros [= ?]. congruence.
Qed.

(** A widget with two suggestions, the first one selected, and an empty
    box. *)
Lemma rendering_lists_the_suggestions_witness :
  let this :=
    Widget.mk example_schema (js "na") [js "name"; js "nation"] (Some 0)
      (Some (Input.mk (js "na") 2 2)) (Some (Box.mk [] [])) in
  exists items,
    renderCompletion this false
    = Return (Widget.mk (Widget.schema this) (Widget.prefix this)
                (Widget.suggestions this) (Widget.selected this)
                (Widget.textarea this) (Some (Box.mk (js "block") items)))
    /\ length items = length (Widget.suggestions this)
    /\ (indexed_from 0 (Box.items (Box.mk [] [])) -> indexed_from 0 items)
    /\ forall i s,
         Widget.suggestions this !! i = Some s ->
         exists item,
           items !! i = Some item
           /\ Li.innerHTML item
              = js "<b>" ++ Widget.prefix this ++ js "</b>"
                ++ slice_from s (Z.of_nat (length (Widget.prefix this)))
           /\ Li.className item
              = if bool_decide (Widget.selected this = Some (Z.of_nat i))
                then js "active" else [].
Proof.
  cbv zeta.
  apply (rendering_lists_the_suggestions _ (Box.mk [] []) (Input.mk (js "na") 2 2));
    [reflexivity | reflexivity | discriminate].
Defined.

(** ** The arrow keys *)

Lemma arrow_key (this : Widget.t) (box : Box.t) (input : Input.t)
  (keyCode : Z) (selected : option Z) :
  Widget.completion this = Some box ->
  Widget.textarea this = Some input ->
  Widget.suggestions this <> [] ->
  (keyCode = 38
   /\ selected
      = match Widget.selected this with
        | None => Some (Z.of_nat (length (Widget.suggestions this)) - 1)
        | Some k => if k =? 0 then None else Some (k - 1)
        end)
  \/ (keyCode = 40
      /\ selected
         = match Widget.selected this with
           | None => Some 0
           | Some k =>
               if k <? Z.of_nat (length (Widget.suggestions this)) - 1
               then Some (k + 1) else None
           end) ->
  exists items,
    onKeydown this keyCode
    = Return (Widget.mk (Widget.schema this) (Widget.prefix this)
                (Widget.suggestions this) selected (Widget.textarea this)
                (Some (Box.mk (js "block") items)),
              Effects.mk true false false).
Proof.
  intros Hbox Hinput Hne Hkey.
  assert (Hlen : (Z.of_nat (length (Widget.suggestions this)) =? 0) = false).
  { apply Z.eqb_neq. destruct (Widget.suggestions this); [done|simpl; lia]. }
  assert (Hrender : forall sel, exists items,
            renderCompletion (select_index this sel) false
            = Return (Widget.mk (Widget.schema this) (Widget.prefix this)
                        (Widget.suggestions this) sel (Widget.textarea this)
                        (Some (Box.mk (js "block") items)))).
  { intros sel. eexists.
    by rewrite (renderCompletion_forced (select_index this sel) box input). }
  unfold onKeydown. cbv zeta. rewrite Hlen. cbn [negb].
  destruct Hkey as [[-> ->]|[-> ->]]; cbn [Z.eqb Pos.eqb].
  - destruct (Hrender (match Widget.selected this with
                       | None => Some (Z.of_nat (length (Widget.suggestions this)) - 1)
                       | Some k => if k =? 0 then None else Some (k - 1)
                       end)) as [items ->].
    by exists items.
  - destruct (Hrender (match Widget.selected this with
                       | None => Some 0
                       | Some k =>
                           if k <? Z.of_nat (length (Widget.suggestions this)) - 1
                           then Some (k + 1) else None
                       end)) as [items ->].
    by exists items.
Qed.

(** With suggestions shown and a selection that is null or the index of a
    suggestion, the arrow keys move through null and the indices in a
    cycle: either key leaves such a selection, keeps the prefix, the
    suggestions and the text, and prevents the default action; and the
    up arrow undoes the down arrow, the down arrow the up arrow. *)
Theorem arrow_keys_are_inverse (this : Widget.t) (box : Box.t) (input : Input.t) :
  Widget.completion this = Some box ->
  Widget.textarea this = Some input ->
  Widget.suggestions this <> [] ->
  valid_selection this ->
  forall first second,
    (first = 40 /\ second = 38) \/ (first = 38 /\ second = 40) ->
    exists this1 this2,
      onKeydown this first = Return (this1, Effects.mk true false false)
      /\ valid_selection this1
      /\ onKeydown this1 second = Return (this2, Effects.mk true false false)
      /\ Widget.selected this2 = Widget.selected this
      /\ Widget.suggestions this2 = Widget.suggestions this
      /\ Widget.prefix this2 = Widget.prefix this
      /\ Widget.textarea this2 = Widget.textarea this.
Proof.
  intros Hbox Hinput Hne Hvalid first second Hkeys.
  set (len := Z.of_nat (length (Widget.suggestions this))).
  assert (Hpos : 0 < len).
  { subst len. destruct (Widget.suggestions this); [done|simpl; lia]. }
  set (down := fun sel : option Z =>
                 match sel with
                 | None => Some 0
                 | Some k => if k <? len - 1 then Some (k + 1) else None
                 end).
  set (up := fun sel : option Z =>
               match sel with
               | None => Some (len - 1)
               | Some k => if k =? 0 then None else Some (k - 1)
               end).
  assert (Hstep : forall (w : Widget.t) b key sel,
            Widget.completion w = Some b -> Widget.textarea w = Some input ->
            Widget.suggestions w = Widget.suggestions this ->
            (key = 38 /\ sel = up (Widget.selected w))
            \/ (key = 40 /\ sel = down (Widget.selected w)) ->
            exists items,
              onKeydown w key
              = Return (Widget.mk (Widget.schema w) (Widget.prefix w)
                          (Widget.suggestions w) sel (Widget.textarea w)
                          (Some (Box.mk (js "block") items)),
                        Effects.mk true false false)).
  { intros w b key sel Hb Hi Hs Hk.
    apply (arrow_key w b input key sel Hb Hi); [by rewrite Hs|].
    subst up down len. cbv beta. by rewrite Hs. }
  assert (Hup : forall sel,
            match sel with None => True | Some k => 0 <= k < len end ->
            match up sel with None => True | Some k => 0 <= k < len end
            /\ down (up sel) = sel).
  { intros [k|] Hk; subst up down; cbv beta iota in *.
    - destruct (Z.eqb_spec k 0) as [->|]; [done|].
      split; [lia|]. destruct (Z.ltb_spec (k - 1) (len - 1)); [f_equal; lia|lia].
    - split; [lia|]. destruct (Z.ltb_spec (len - 1) (len - 1)); [lia|done]. }
  assert (Hdown : forall sel,
            match sel with None => True | Some k => 0 <= k < len end ->
            match down sel with None => True | Some k => 0 <= k < len end
            /\ up (down sel) = sel).
  { intros [k|] Hk; subst up down; cbv beta iota in *.
    - destruct (Z.ltb_spec k (len - 1)).
      + split; [lia|]. destruct (Z.eqb_spec (k + 1) 0); [lia|f_equal; lia].
      + split; [done|]. f_equal. lia.
    - split; [lia|]. done. }
  unfold valid_selection in Hvalid. fold len in Hvalid.
  destruct Hkeys as [[-> ->]|[-> ->]].
  - destruct (Hdown _ Hvalid) as [Hv Hinv].
    destruct (Hstep this box 40 (down (Widget.selected this)) Hbox Hinput eq_refl
                ltac:(by right)) as [items1 H1].
    eexists. rewrite H1.
    destruct (Hstep (Widget.mk (Widget.schema this) (Widget.prefix this)
                       (Widget.suggestions this) (down (Widget.selected this))
                       (Widget.textarea this) (Some (Box.mk (js "block") items1)))
                (Box.mk (js "block") items1) 38 (Widget.selected this)
                eq_refl Hinput eq_refl ltac:(left; split; [done|symmetry; exact Hinv]))
      as [items2 H2].
    eexists. split; [reflexivity|]. split; [exact Hv|]. rewrite H2.
    repeat split.
  - destruct (Hup _ Hvalid) as [Hv Hinv].
    destruct (Hstep this box 38 (up (Widget.selected this)) Hbox Hinput eq_refl
                ltac:(by left)) as [items1 H1].
    eexists. rewrite H1.
    destruct (Hstep (Widget.mk (Widget.schema this) (Widget.prefix this)
                       (Widget.suggestions this) (up (Widget.selected this))
                       (Widget.textarea this) (Some (Box.mk (js "block") items1)))
                (Box.mk (js "block") items1) 40 (Widget.selected this)
                eq_refl Hinput eq_refl ltac:(right; split; [done|symmetry; exact Hinv]))
      as [items2 H2].
    eexists. split; [reflexivity|]. split; [exact Hv|]. rewrite H2.
    repeat split.
Qed.

Lemma arrow_keys_are_inverse_witness :
  let this :=
    Widget.mk example_schema (js "na") [js "name"; js "nation"] (Some 1)
      (Some (Input.mk (js "na") 2 2)) (Some (Box.mk [] [])) in
  exists this1 this2,
    onKeydown this 40 = Return (this1, Effects.mk true false false)
    /\ valid_selection this1
    /\ onKeydown this1 38 = Return (this2, Effects.mk true false false)
    /\ Widget.selected this2 = Widget.selected this
    /\ Widget.suggestions this2 = Widget.suggestions this
    /\ Widget.prefix this2 = Widget.prefix this
    /\ Widget.textarea this2 = Widget.textarea this.
Proof.
  cbv zeta.
  apply (arrow_keys_are_inverse _ (Box.mk [] []) (Input.mk (js "na") 2 2)).
  - reflexivity.
  - reflexivity.
  - discriminate.
  - unfold valid_selection. simpl. lia.
  - left. split; reflexivity.
Defined.

(** ** Accepting a suggestion *)

Lemma renderCompletion_cleared (schema : Schema) (prefix : jsstring)
  (selected : option Z) (textarea : option Input.t) (completion : option Box.t) :
  renderCompletion (Widget.mk schema prefix [] selected textarea completion) false
  = Return (hideCompletion
              (Widget.mk schema prefix [] selected textarea completion)).
Proof. reflexivity. Qed.

Lemma at_index_lookup {A : Type} (l : list A) (index : Z) (x : A) :
  at_index l index = Some x -> 0 <= index /\ l !! Z.to_nat index = Some x.
Proof.
  unfold at_index. destruct (Z.ltb_spec index 0); [done|]. by split.
Qed.

(** The widget [selectCompletion] and the accepting keys leave: the text
    [before], the suggestion and the text after the cursor, the cursor
    after the suggestion, no suggestions, no selection, the box hidden. *)
Lemma selectCompletion_completes
  (this : Widget.t) (input : Input.t) (before suggestion : jsstring) (index : Z) :
  Widget.textarea this = Some input ->
  slice (Input.value input) 0 (Input.selectionStart input)
  = before ++ Widget.prefix this ->
  Widget.prefix this `prefix_of` suggestion ->
  at_index (Widget.suggestions this) index = Some suggestion ->
  selectCompletion this index
  = Return (Widget.mk (Widget.schema this) (Widget.prefix this) [] None
              (Some (Input.mk
                       (before ++ suggestion
                        ++ slice_from (Input.value input)
                             (Input.selectionStart input))
                       (Z.of_nat (length (before ++ suggestion)))
                       (Z.of_nat (length (before ++ suggestion)))))
              ((fun box => Box.mk (js "none") (Box.items box))
                 <$> Widget.completion this)).
Proof.
  intros Htextarea Hbefore [rest ->] Hindex.
  unfold selectCompletion. rewrite Htextarea, Hindex.
  rewrite renderCompletion_cleared. unfold hideCompletion.
  cbn [Widget.schema Widget.prefix Widget.suggestions Widget.textarea
       Widget.completion].
  rewrite slice_from_nat, drop_app_length, Hbefore.
  do 3 f_equal. f_equal.
  - by rewrite <- !app_assoc.
  - rewrite !length_app. lia.
  - rewrite !length_app. lia.
Qed.

(** Accepting a suggestion completes what was typed: after the deferred
    callback has computed the suggestions for the textarea, selecting the
    suggestion at an index replaces the typed prefix, which ends the text
    before the cursor, by the whole suggestion; the text before the prefix
    and the text after the cursor stay, the cursor stands right after the
    suggestion, the suggestions are cleared, the selection is null and the
    box is hidden. *)
Theorem accepting_a_suggestion_completes_the_prefix
  (d : Discipline) (this this1 : Widget.t) (input : Input.t)
  (index : Z) (suggestion : jsstring) :
  Widget.textarea this = Some input ->
  onKeydown_deferred d this = Return this1 ->
  at_index (Widget.suggestions this1) index = Some suggestion ->
  exists before,
    slice (Input.value input) 0 (Input.selectionStart input)
    = before ++ Widget.prefix this1
    /\ Widget.prefix this1 `prefix_of` suggestion
    /\ let cursor := Z.of_nat (length (before ++ suggestion)) in
       selectCompletion this1 index
       = Return (Widget.mk (Widget.schema this1) (Widget.prefix this1) [] None
                   (Some (Input.mk
                            (before ++ suggestion
                             ++ slice_from (Input.value input)
                                  (Input.selectionStart input))
                            cursor cursor))
                   ((fun box => Box.mk (js "none") (Box.items box))
                      <$> Widget.completion this1)).
Proof.
  intros Hinput Hdeferred Hindex.
  unfold onKeydown_deferred in Hdeferred. rewrite Hinput in Hdeferred.
  unfold mbind, outcome_bind in Hdeferred.
  destruct (generateSuggestions d (Widget.schema this) input) as [c|] eqn:Hc;
    [|done].
  destruct (generateSuggestions_consistent _ _ _ _ Hc) as [[before Hbefore] Hall].
  assert (Hfields : Widget.prefix this1 = Completion.prefix c
                    /\ Widget.suggestions this1 = Completion.suggestions c
                    /\ Widget.textarea this1 = Some input).
  { unfold renderCompletion in Hdeferred. cbn [mbind outcome_bind] in Hdeferred.
    cbn [Widget.suggestions Widget.completion Widget.textarea] in Hdeferred.
    destruct (Completion.suggestions c) as [|s rest] eqn:Hs.
    - injection Hdeferred as <-. by cbn.
    - destruct (Widget.completion this); [|done].
      injection Hdeferred as <-. by cbn. }
  destruct Hfields as (Hprefix & Hsuggestions & Htextarea).
  assert (Hstarts : Widget.prefix this1 `prefix_of` suggestion).
  { pose proof (at_index_lookup _ _ _ Hindex) as [_ Hlookup].
    rewrite Hprefix. rewrite Hsuggestions in Hlookup.
    by apply (Forall_lookup_1 _ _ _ _ Hall Hlookup). }
  exists before. rewrite Hprefix in *.
  split; [done|]. split; [done|]. cbv zeta.
  rewrite (selectCompletion_completes this1 input before suggestion index);
    rewrite ?Hprefix; done.
Qed.

Lemma accepting_a_suggestion_completes_the_prefix_witness :
  let this :=
    Widget.mk example_schema [] [] None
      (Some (Input.mk (js "customer.na and") 11 11)) (Some (Box.mk [] [])) in
  let this1 :=
    Widget.mk example_schema (js "na") [js "name"] None
      (Some (Input.mk (js "customer.na and") 11 11))
      (Some (Box.mk (js "block")
               [Li.mk 0 (js "<b>na</b>me") []])) in
  exists before,
    slice (js "customer.na and") 0 11 = before ++ Widget.prefix this1
    /\ Widget.prefix this1 `prefix_of` js "name"
    /\ let cursor := Z.of_nat (length (before ++ js "name")) in
       selectCompletion this1 0
       = Return (Widget.mk (Widget.schema this1) (Widget.prefix this1) [] None
                   (Some (Input.mk
                            (before ++ js "name"
                             ++ slice_from (js "customer.na and") 11)
                            cursor cursor))
                   ((fun box => Box.mk (js "none") (Box.items box))
                      <$> Widget.completion this1)).
Proof.
  cbv zeta.
  apply (accepting_a_suggestion_completes_the_prefix LongestMatch
           (Widget.mk example_schema [] [] None
              (Some (Input.mk (js "customer.na and") 11 11)) (Some (Box.mk [] [])))
           _ (Input.mk (js "customer.na and") 11 11) 0 (js "name")).
  - reflexivity.
  - vm_compute. reflexivity.
  - reflexivity.
Defined.

(** ** Tab and Enter *)

(** With a selected suggestion and a prefix that ends the text before the
    cursor, Tab and Enter accept the suggestion: the text becomes the text
    before the prefix, the suggestion and the text after the cursor, the
    default action is prevented and the form is not submitted.  Without a
    selection Enter submits the form and Tab is left to the browser; the
    widget is unchanged. *)
Theorem tab_and_enter_accept_the_selection
  (this : Widget.t) (input : Input.t) (before suggestion : jsstring) (index : Z) :
  Widget.textarea this = Some input ->
  slice (Input.value input) 0 (Input.selectionStart input)
  = before ++ Widget.prefix this ->
  Widget.prefix this `prefix_of` suggestion ->
  at_index (Widget.suggestions this) index = Some suggestion ->
  let accepted :=
    Widget.mk (Widget.schema this) (Widget.prefix this) [] None
      (Some (Input.mk
               (before ++ suggestion
                ++ slice_from (Input.value input) (Input.selectionStart input))
               (Z.of_nat (length (before ++ suggestion)))
               (Z.of_nat (length (before ++ suggestion)))))
      ((fun box => Box.mk (js "none") (Box.items box))
         <$> Widget.completion this) in
  (forall keyCode,
      keyCode = 9 \/ keyCode = 13 ->
      onKeydown (select_index this (Some index)) keyCode
      = Return (accepted, Effects.mk true false false))
  /\ onKeydown (select_index this None) 13
     = Return (select_index this None, Effects.mk true true false)
  /\ onKeydown (select_index this None) 9
     = Return (select_index this None, Effects.mk false false false).
Proof.
  intros Htextarea Hbefore Hstarts Hindex. cbv zeta.
  split; [|split; reflexivity].
  intros keyCode Hkey.
  pose proof (selectCompletion_completes (select_index this (Some index)) input
                before suggestion index Htextarea Hbefore Hstarts Hindex) as Hsel.
  unfold onKeydown. cbv zeta.
  destruct Hkey as [-> | ->]; cbn [Z.eqb Pos.eqb Widget.selected select_index];
    rewrite Hsel; reflexivity.
Qed.

Lemma tab_and_enter_accept_the_selection_witness :
  let this :=
    Widget.mk example_schema (js "na") [js "name"] None
      (Some (Input.mk (js "customer.na and") 11 11))
      (Some (Box.mk (js "block") [Li.mk 0 (js "<b>na</b>me") []])) in
  let accepted :=
    Widget.mk example_schema (js "na") [] None
      (Some (Input.mk
               (js "customer." ++ js "name" ++ slice_from (js "customer.na and") 11)
               (Z.of_nat (length (js "customer." ++ js "name")))
               (Z.of_nat (length (js "customer." ++ js "name")))))
      ((fun box => Box.mk (js "none") (Box.items box))
         <$> Widget.completion this) in
  (forall keyCode,
      keyCode = 9 \/ keyCode = 13 ->
      onKeydown (select_index this (Some 0)) keyCode
      = Return (accepted, Effects.mk true false false))
  /\ onKeydown (select_index this None) 13
     = Return (select_index this None, Effects.mk true true false)
  /\ onKeydown (select_index this None) 9
     = Return (select_index this None, Effects.mk false false false).
Proof.
  cbv zeta.
  apply (tab_and_enter_accept_the_selection
           (Widget.mk example_schema (js "na") [js "name"] None
              (Some (Input.mk (js "customer.na and") 11 11))
              (Some (Box.mk (js "block") [Li.mk 0 (js "<b>na</b>me") []])))
           (Input.mk (js "customer.na and") 11 11) (js "customer.") (js "name") 0).
  - reflexivity.
  - vm_compute. reflexivity.
  - by exists (js "me").
  - reflexivity.
Defined.

(** ** What a key can change *)

Lemma renderCompletion_keeps (this this' : Widget.t) (dontForceDisplay : bool) :
  renderCompletion this dontForceDisplay = Return this' ->
  Widget.schema this' = Widget.schema this
  /\ Widget.prefix this' = Widget.prefix this
  /\ Widget.suggestions this' = Widget.suggestions this
  /\ Widget.textarea this' = Widget.textarea this.
Proof.
  unfold renderCompletion, mbind, outcome_bind.
  destruct dontForceDisplay.
  - destruct (Widget.completion this) as [box|]; [|done].
    destruct (streq _ _); [by intros [= <-]|].
    destruct (Widget.suggestions this) eqn:Hs; [by intros [= <-]|].
    destruct (Widget.textarea this); [|done]. by intros [= <-].
  - destruct (Widget.suggestions this) eqn:Hs; [by intros [= <-]|].
    destruct (Widget.completion this); [|done].
    destruct (Widget.textarea this); [|done]. by intros [= <-].
Qed.

Lemma selectCompletion_keeps (this this' : Widget.t) (index : Z) :
  selectCompletion this index = Return this' ->
  Widget.schema this' = Widget.schema this
  /\ Widget.prefix this' = Widget.prefix this.
Proof.
  unfold selectCompletion.
  destruct (Widget.textarea this); [|done].
  destruct (at_index _ _); [|done].
  intros H. apply renderCompletion_keeps in H as (H1 & H2 & _). done.
Qed.

(** A key never changes the schema or the prefix; the text and the
    suggestions change only when Tab or Enter accepts a selected
    suggestion; the form is submitted only by Enter without a selection;
    and the computation of new suggestions is deferred exactly for the
    keys other than the arrows, Tab, Enter and Esc. *)
Theorem keys_change_the_text_only_by_accepting
  (this this' : Widget.t) (keyCode : Z) (effects : Effects.t) :
  onKeydown this keyCode = Return (this', effects) ->
  Widget.schema this' = Widget.schema this
  /\ Widget.prefix this' = Widget.prefix this
  /\ (Widget.textarea this' <> Widget.textarea this
      \/ Widget.suggestions this' <> Widget.suggestions this ->
      (keyCode = 9 \/ keyCode = 13) /\ is_Some (Widget.selected this))
  /\ (Effects.submitted effects = true ->
      keyCode = 13 /\ Widget.selected this = None)
  /\ (Effects.deferred effects = true <->
      ~ In keyCode [38; 40; 9; 13; 27]).
Proof.
  unfold onKeydown. cbv zeta.
  assert (Harrow : forall sel,
            (this'' ← renderCompletion (select_index this sel) false;
             Return (this'', Effects.mk true false false))
            = Return (this', effects) ->
            Widget.schema this' = Widget.schema this
            /\ Widget.prefix this' = Widget.prefix this
            /\ Widget.textarea this' = Widget.textarea this
            /\ Widget.suggestions this' = Widget.suggestions this
            /\ effects = Effects.mk true false false).
  { intros sel. unfold mbind, outcome_bind.
    destruct (renderCompletion _ _) as [w|] eqn:Hw; [|done].
    intros [= <- <-]. by apply renderCompletion_keeps in Hw as (? & ? & ? & ?). }
  assert (Haccept : forall k,
            (this'' ← selectCompletion this k;
             Return (this'', Effects.mk true false false))
            = Return (this', effects) ->
            Widget.schema this' = Widget.schema this
            /\ Widget.prefix this' = Widget.prefix this
            /\ effects = Effects.mk true false false).
  { intros k. unfold mbind, outcome_bind.
    destruct (selectCompletion _ _) as [w|] eqn:Hw; [|done].
    intros [= <- <-]. by apply selectCompletion_keeps in Hw as (? & ?). }
  destruct (Z.eqb_spec keyCode 38) as [->|H38].
  { destruct (negb _).
    - intros H. apply Harrow in H as (? & ? & ? & ? & ->).
      repeat split; simpl; try done; try tauto;
        try (intros [?|?]; done); try (by left); try (by right);
        try (intros Hin; exfalso; apply Hin; auto 10).
    - intros [= <- <-].
      repeat split; simpl; try done; try tauto;
        try (intros [?|?]; done); try (by left); try (by right);
        try (intros Hin; exfalso; apply Hin; auto 10). }
  destruct (Z.eqb_spec keyCode 40) as [->|H40].
  { destruct (negb _).
    - intros H. apply Harrow in H as (? & ? & ? & ? & ->).
      repeat split; simpl; try done; try tauto;
        try (intros [?|?]; done); try (by left); try (by right);
        try (intros Hin; exfalso; apply Hin; auto 10).
    - intros [= <- <-].
      repeat split; simpl; try done; try tauto;
        try (intros [?|?]; done); try (by left); try (by right);
        try (intros Hin; exfalso; apply Hin; auto 10). }
  destruct (Z.eqb_spec keyCode 9) as [->|H9].
  { destruct (Widget.selected this) as [k|].
    - intros H. apply Haccept in H as (? & ? & ->).
      repeat split; simpl; try done; try tauto;
        try (intros [?|?]; done); try (by left); try (by right);
        try (intros Hin; exfalso; apply Hin; auto 10).
    - intros [= <- <-].
      repeat split; simpl; try done; try tauto;
        try (intros [?|?]; done); try (by left); try (by right);
        try (intros Hin; exfalso; apply Hin; auto 10). }
  destruct (Z.eqb_spec keyCode 13) as [->|H13].
  { destruct (Widget.selected this) as [k|].
    - intros H. apply Haccept in H as (? & ? & ->).
      repeat split; simpl; try done; try tauto;
        try (intros [?|?]; done); try (by left); try (by right);
        try (intros Hin; exfalso; apply Hin; auto 10).
    - intros [= <- <-].
      repeat split; simpl; try done; try tauto;
        try (intros [?|?]; done); try (by left); try (by right);
        try (intros Hin; exfalso; apply Hin; auto 10). }
  destruct (Z.eqb_spec keyCode 27) as [->|H27].
  { intros [= <- <-].
    repeat split; simpl; try done; try tauto;
        try (intros [?|?]; done); try (by left); try (by right);
        try (intros Hin; exfalso; apply Hin; auto 10). }
  intros [= <- <-].
  repeat split; simpl; try done; try tauto;
        try (intros [?|?]; done); try (by left); try (by right);
        try (intros Hin; exfalso; apply Hin; auto 10).
  intros _ [?|[?|[?|[?|[?|[]]]]]]; congruence.
Qed.

Lemma keys_change_the_text_only_by_accepting_witness :
  let this :=
    Widget.mk example_schema (js "na") [js "name"] (Some 0)
      (Some (Input.mk (js "customer.na and") 11 11))
      (Some (Box.mk (js "block") [Li.mk 0 (js "<b>na</b>me") (js "active")])) in
  let this' :=
    Widget.mk example_schema (js "na") [] None
      (Some (Input.mk (js "customer.name and") 13 13))
      (Some (Box.mk (js "none") [Li.mk 0 (js "<b>na</b>me") (js "active")])) in
  let effects := Effects.mk true false false in
  Widget.schema this' = Widget.schema this
  /\ Widget.prefix this' = Widget.prefix this
  /\ (Widget.textarea this' <> Widget.textarea this
      \/ Widget.suggestions this' <> Widget.suggestions this ->
      (13 = 9 \/ 13 = 13) /\ is_Some (Widget.selected this))
  /\ (Effects.submitted effects = true ->
      13 = 13 /\ Widget.selected this = None)
  /\ (Effects.deferred effects = true <->
      ~ In 13 [38; 40; 9; 13; 27]).
Proof.
  cbv zeta.
  apply (keys_change_the_text_only_by_accepting
           (Widget.mk example_schema (js "na") [js "name"] (Some 0)
              (Some (Input.mk (js "customer.na and") 11 11))
              (Some (Box.mk (js "block")
                       [Li.mk 0 (js "<b>na</b>me") (js "active")])))
           (Widget.mk example_schema (js "na") [] None
              (Some (Input.mk (js "customer.name and") 13 13))
              (Some (Box.mk (js "none")
                       [Li.mk 0 (js "<b>na</b>me") (js "active")])))
           13 (Effects.mk true false false)).
  vm_compute. reflexivity.
Defined.
